(** * Shrdlite: goal resolver (Interpreter.ts) and planner (Planner.ts)

    A shallow embedding of the blocks-world interpreter and planner.  The
    definitions follow the TypeScript functions one by one and keep their
    names; loops are written as structural recursions over the array they
    walk, with the loop variables as arguments. *)

From stdpp Require Import base list strings relations.
From Stdlib Require Import ZArith.

Local Open Scope string_scope.
Local Open Scope list_scope.

(** ** JavaScript values *)

(** A value of static type [string] at run time: a string, or one of
    [null] and [undefined].  Loose equality [==] does not tell the two apart
    and no string is equal to either, so one constructor stands for both. *)
Inductive jsstr : Type :=
  | Nil
  | Str (s : string).

Coercion Str : string >-> jsstr.

#[global] Instance jsstr_eq_dec : EqDecision jsstr.
Proof. solve_decision. Defined.

(** [a == b] on such values. *)
Definition js_eq (a b : jsstr) : bool := bool_decide (a = b).

(** Truthiness, as tested by [if (v)], [v && ...] and [!v]: [null],
    [undefined] and the empty string are falsy. *)
Definition truthy (v : jsstr) : bool :=
  match v with
  | Nil => false
  | Str s => negb (bool_decide (s = ""))
  end.

(** Values that can be thrown: the [TypeError] raised by a property access
    on [null] or [undefined], a thrown string, and [undefined] itself (what
    [throw errors[0]] throws when [errors] is empty). *)
Inductive exn : Type :=
  | TypeError
  | Thrown (msg : string)
  | ThrownUndefined.

(** The result of running a function that may throw. *)
Inductive outcome (A : Type) : Type :=
  | Return (a : A)
  | Throw (e : exn).

Arguments Return {A} a.
Arguments Throw {A} e.

(** Sequencing, written [x ← m; k]: a [Throw] leaves the rest undone. *)
#[global] Instance outcome_ret : MRet outcome := λ A a, Return a.
#[global] Instance outcome_bind : MBind outcome := λ A B k m,
  match m with
  | Return a => k a
  | Throw e => Throw e
  end.

(** Property access [o.f] on an optional object. *)
Definition deref {A : Type} (o : option A) : outcome A :=
  match o with
  | Some a => Return a
  | None => Throw TypeError
  end.

(** ** World.ts: the data model *)

(** Modelled from the spec: [ObjectDefinition] is declared in World.ts, which
    is not among the sources.  Section 3 of the specification gives the
    forms and the two sizes. *)
Inductive Form : Type := brick | plank | ball | pyramid | box | table | floor.
Inductive Size : Type := small | large.

#[global] Instance Form_eq_dec : EqDecision Form.
Proof. solve_decision. Defined.
#[global] Instance Size_eq_dec : EqDecision Size.
Proof. solve_decision. Defined.

Record ObjectDefinition : Type := mkObjectDefinition {
  form : Form;
  size : Size;
  color : string
}.

Definition form_name (f : Form) : string :=
  match f with
  | brick => "brick" | plank => "plank" | ball => "ball"
  | pyramid => "pyramid" | box => "box" | table => "table"
  | floor => "floor"
  end.

Definition size_name (s : Size) : string :=
  match s with small => "small" | large => "large" end.

(** Modelled from the spec: [WorldState] (World.ts).  [objects] is the
    JavaScript object used as the table of definitions; it is kept as the
    list of its entries in [for ... in] order. *)
Record WorldState : Type := mkWorldState {
  stacks : list (list string);
  holding : jsstr;
  arm : Z;
  objects : list (string * ObjectDefinition);
  examples : list string
}.

(** ** Interpreter.ts: lookups in the object table *)

Fixpoint getObjectSize_loop (entries : list (string * ObjectDefinition))
    (objectKey : jsstr) : option Size :=
  match entries with
  | [] => None
  | (key, def) :: rest =>
      if js_eq key objectKey then Some (size def)
      else getObjectSize_loop rest objectKey
  end.

Definition getObjectSize (objectKey : jsstr) (state : WorldState) : option Size :=
  getObjectSize_loop (objects state) objectKey.

Fixpoint getObjectForm_loop (entries : list (string * ObjectDefinition))
    (objectKey : jsstr) : option Form :=
  match entries with
  | [] => None
  | (key, def) :: rest =>
      if js_eq key objectKey then Some (form def)
      else getObjectForm_loop rest objectKey
  end.

Definition getObjectForm (objectKey : jsstr) (state : WorldState) : option Form :=
  if js_eq objectKey "floor" then Some floor
  else getObjectForm_loop (objects state) objectKey.

(** [getObjectForm(k, state) == "f"] and [getObjectSize(k, state) == "s"]. *)
Definition form_is (o : option Form) (f : Form) : bool := bool_decide (o = Some f).
Definition size_is (o : option Size) (s : Size) : bool := bool_decide (o = Some s).

(** ** Interpreter.ts: the physical rule table *)

Definition isMoveValid (objectToMove : jsstr) (relation : string)
    (targetObject : jsstr) (state : WorldState) : bool :=
  if bool_decide (relation = "inside")
     && (size_is (getObjectSize objectToMove state) large
         && size_is (getObjectSize targetObject state) small)
     && form_is (getObjectForm targetObject state) box
  then false
  else if (bool_decide (relation = "inside") || bool_decide (relation = "ontop"))
          && (form_is (getObjectForm objectToMove state) box
              || form_is (getObjectForm objectToMove state) plank
              || form_is (getObjectForm objectToMove state) pyramid)
          && form_is (getObjectForm targetObject state) box
  then
    if size_is (getObjectSize objectToMove state) large
       || size_is (getObjectSize targetObject state) small
    then false
    else true
  else if (bool_decide (relation = "inside") || bool_decide (relation = "ontop"))
          && form_is (getObjectForm objectToMove state) box
          && (form_is (getObjectForm targetObject state) brick
              || form_is (getObjectForm targetObject state) pyramid)
  then false
  else if bool_decide (relation = "ontop")
          && form_is (getObjectForm objectToMove state) ball
          && negb (form_is (getObjectForm targetObject state) floor)
  then false
  else if js_eq targetObject objectToMove
  then false
  else true.

(** ** Interpreter.ts: spatial predicates *)

Definition doesObjectExist (holding : jsstr) (stacks : list (list string))
    (searched_object : jsstr) : bool :=
  if js_eq holding searched_object then true
  else
    existsb (λ stack,
      existsb (λ object : string, js_eq object searched_object) stack) stacks.

(** [isInside]: [foundObjectBelow] is the loop's flag. *)
Fixpoint isInside_loop (stack : list string) (foundObjectBelow : bool)
    (objectInside objectBelow : jsstr) : bool :=
  match stack with
  | [] => false
  | object :: rest =>
      if foundObjectBelow then js_eq object objectInside
      else isInside_loop rest (js_eq object objectBelow) objectInside objectBelow
  end.

Definition isInside (stack : list string) (objectInside objectBelow : jsstr)
    (state : WorldState) : bool :=
  if negb (form_is (getObjectForm objectBelow state) table)
  then isInside_loop stack false objectInside objectBelow
  else false.

(** [isRightOf], [isLeftOf] and [isBeside] run the same pair of loops: in
    every stack, the first entry that is one of the two objects records the
    stack's number for that object and [break]s out of the inner loop.
    [nrs] holds the two numbers, initially [-10]. *)
Fixpoint stackNr_scan (stack : list string) (stack_number : Z)
    (firstObject secondObject : jsstr) (nrs : Z * Z) : Z * Z :=
  match stack with
  | [] => nrs
  | object :: rest =>
      if js_eq object firstObject then (stack_number, nrs.2)
      else if js_eq object secondObject then (nrs.1, stack_number)
      else stackNr_scan rest stack_number firstObject secondObject nrs
  end.

Fixpoint stackNr_loop (stacks : list (list string)) (stack_number : nat)
    (firstObject secondObject : jsstr) (nrs : Z * Z) : Z * Z :=
  match stacks with
  | [] => nrs
  | stack :: rest =>
      stackNr_loop rest (S stack_number) firstObject secondObject
        (stackNr_scan stack (Z.of_nat stack_number) firstObject secondObject nrs)
  end.

Definition isRightOf (stacks : list (list string))
    (rightObject secondObject : jsstr) : bool :=
  let '(rightObjectStackNr, secondObjectStackNr) :=
    stackNr_loop stacks 0 rightObject secondObject (-10, -10)%Z in
  negb (secondObjectStackNr =? -10)%Z && negb (rightObjectStackNr =? -10)%Z
  && (0 <? rightObjectStackNr - secondObjectStackNr)%Z.

Definition isLeftOf (stacks : list (list string))
    (leftObject secondObject : jsstr) : bool :=
  let '(leftObjectStackNr, secondObjectStackNr) :=
    stackNr_loop stacks 0 leftObject secondObject (-10, -10)%Z in
  negb (secondObjectStackNr =? -10)%Z && negb (leftObjectStackNr =? -10)%Z
  && (0 <? secondObjectStackNr - leftObjectStackNr)%Z.

Definition isBeside (stacks : list (list string))
    (firstObject secondObject : jsstr) : bool :=
  let '(firstObjectStackNr, secondObjectStackNr) :=
    stackNr_loop stacks 0 firstObject secondObject (-10, -10)%Z in
  (Z.abs (secondObjectStackNr - firstObjectStackNr) =? 1)%Z.

(** [isAbove]: three statements per entry, in the source's order. *)
Fixpoint isAbove_loop (stack : list string) (foundObjectUnder : bool)
    (objectAbove objectUnder : jsstr) : bool :=
  match stack with
  | [] => false
  | object :: rest =>
      if foundObjectUnder && js_eq object objectAbove then true
      else
        let foundObjectUnder' := foundObjectUnder || js_eq object objectUnder in
        if js_eq objectUnder "floor" && js_eq object objectAbove then true
        else isAbove_loop rest foundObjectUnder' objectAbove objectUnder
  end.

Definition isAbove (stack : list string) (objectAbove objectUnder : jsstr)
    (state : WorldState) : bool :=
  if negb (form_is (getObjectForm objectAbove state) floor)
  then isAbove_loop stack false objectAbove objectUnder
  else false.

Fixpoint isUnder_loop (stack : list string) (foundObjectUnder : bool)
    (objectUnder objectAbove : jsstr) : bool :=
  match stack with
  | [] => false
  | object :: rest =>
      if foundObjectUnder && js_eq object objectAbove then true
      else isUnder_loop rest (foundObjectUnder || js_eq object objectUnder)
             objectUnder objectAbove
  end.

Definition isUnder (stack : list string) (objectUnder objectAbove : jsstr)
    (state : WorldState) : bool :=
  if negb (form_is (getObjectForm objectAbove state) floor)
     && negb (form_is (getObjectForm objectUnder state) floor)
  then isUnder_loop stack false objectUnder objectAbove
  else false.

(** [isOnTop]: [key] is the index of the entry, compared with ["0"] in the
    source. *)
Fixpoint isOnTop_loop (stack : list string) (key : nat) (foundObjectBelow : bool)
    (objectOnTop objectBelow : jsstr) : bool :=
  match stack with
  | [] => false
  | object :: rest =>
      if foundObjectBelow then js_eq object objectOnTop
      else
        let foundObjectBelow' := js_eq object objectBelow in
        if js_eq objectBelow "floor" && js_eq object objectOnTop
           && bool_decide (key = 0%nat)
        then true
        else isOnTop_loop rest (S key) foundObjectBelow' objectOnTop objectBelow
  end.

Definition isOnTop (stack : list string) (objectOnTop objectBelow : jsstr)
    (state : WorldState) : bool :=
  if negb (form_is (getObjectForm objectOnTop state) floor)
  then isOnTop_loop stack 0 false objectOnTop objectBelow
  else false.

(** ** Parser.ts: the structured command *)

(** Modelled from the spec: the parser's types (Parser.ts is not among the
    sources), as section 6 of the specification and the field accesses of
    Interpreter.ts give them.  An object description carries the three
    filters, or a nested description with a location; optional fields are
    [Nil] or [None] when absent. *)
#[warnings="-register-all"]
Inductive Parser_Object : Type := mkObject {
  obj_form : jsstr;
  obj_color : jsstr;
  obj_size : jsstr;
  obj_object : option Parser_Object;
  obj_location : option Parser_Location
}
with Parser_Location : Type := mkLocation {
  loc_relation : string;
  loc_entity : Parser_Entity
}
with Parser_Entity : Type := mkEntity {
  ent_quantifier : string;
  ent_object : Parser_Object
}.

Record Parser_Command : Type := mkCommand {
  cmd_command : string;
  cmd_entity : option Parser_Entity;
  cmd_location : option Parser_Location
}.

Record ParseResult : Type := mkParseResult {
  input : string;
  parse : Parser_Command
}.

(** ** Interpreter.ts: formulas *)

Record Literal : Type := mkLiteral {
  polarity : bool;
  relation : string;
  args : list string
}.

Definition Conjunction : Type := list Literal.
Definition DNFFormula : Type := list Conjunction.

(** [InterpretationResult extends ParseResult]. *)
Record InterpretationResult : Type := mkInterpretationResult {
  parseresult : ParseResult;
  interpretation : DNFFormula
}.

(** [class ObjectRelations]; [relation] and [locationObject] are [null] in
    the entry made for the implicit object ["itself"]. *)
Record ObjectRelations : Type := mkObjectRelations {
  targetObject : string;
  or_relation : jsstr;
  locationObject : jsstr
}.

(** ** Interpreter.ts: the goal resolver *)

Fixpoint getObjectKeys_loop (entries : list (string * ObjectDefinition))
    (object : Parser_Object) (state : WorldState) : list string :=
  match entries with
  | [] => []
  | (key, def) :: rest =>
      if (js_eq (obj_form object) (form_name (form def))
          || js_eq (obj_form object) "anyform")
         && (js_eq (obj_color object) (color def) || js_eq (obj_color object) Nil)
         && (js_eq (obj_size object) (size_name (size def))
             || js_eq (obj_size object) Nil)
      then
        if doesObjectExist (holding state) (stacks state) key
        then key :: getObjectKeys_loop rest object state
        else getObjectKeys_loop rest object state
      else getObjectKeys_loop rest object state
  end.

Definition getObjectKeys (object : Parser_Object) (state : WorldState)
    : list string :=
  if js_eq (obj_form object) "floor" then ["floor"]
  else getObjectKeys_loop (objects state) object state.

(** The two nested [for ... of] loops that pair every target with every
    location. *)
Definition pairRelations (targetObjects : list string) (relation : string)
    (locationObjects : list string) : list ObjectRelations :=
  flat_map (λ targetObject : string,
    map (λ locationObject : string,
      mkObjectRelations targetObject relation locationObject) locationObjects)
    targetObjects.

Definition getRequestedObjectRelations (object : Parser_Object)
    (state : WorldState) : outcome (list ObjectRelations) :=
  match obj_location object with
  | Some location =>
      inner ← deref (obj_object object);
      let targetObjects := getObjectKeys inner state in
      let locationObjects := getObjectKeys (ent_object (loc_entity location)) state in
      Return (pairRelations targetObjects (loc_relation location) locationObjects)
  | None =>
      Return (map (λ targetObject : string, mkObjectRelations targetObject "" Nil)
                (getObjectKeys object state))
  end.

(** The body of the loop over [state.stacks], shared by
    [getObjectRelationsThatExistsInWorld] and the planner's
    [isInterpretationInCurrentWorldstate]: an unknown relation only logs a
    warning and leaves the flag [false]. *)
Definition relationInStack (relation : jsstr) (stack : list string)
    (first second : jsstr) (state : WorldState) : bool :=
  if js_eq relation "inside" then isInside stack first second state
  else if js_eq relation "ontop" then isOnTop stack first second state
  else if js_eq relation "above" then isAbove stack first second state
  else if js_eq relation "under" then isUnder stack first second state
  else false.

Definition objectRelationExists (objectRelation : ObjectRelations)
    (state : WorldState) : bool :=
  let relation := or_relation objectRelation in
  let target : jsstr := targetObject objectRelation in
  let location := locationObject objectRelation in
  if js_eq relation "beside" then isBeside (stacks state) target location
  else if js_eq relation "leftof" then isLeftOf (stacks state) target location
  else if js_eq relation "rightof" then isRightOf (stacks state) target location
  else if js_eq relation "" then doesObjectExist (holding state) (stacks state) target
  else existsb (λ stack, relationInStack relation stack target location state)
         (stacks state).

Definition getObjectRelationsThatExistsInWorld
    (objectRelations : list ObjectRelations) (state : WorldState)
    : list ObjectRelations :=
  List.filter (λ objectRelation, objectRelationExists objectRelation state)
    objectRelations.

(** The body of both loops of [getPossibleMoves] that emit a placement
    literal for one candidate location key. *)
Definition placementLiterals (objectToMove : string) (relation : string)
    (locationKey : string) (state : WorldState) : list Literal :=
  if isMoveValid objectToMove relation locationKey state then
    if bool_decide (objectToMove = "itself") then
      match holding state with
      | Str held => [mkLiteral true relation [held; locationKey]]
      | Nil => []
      end
    else [mkLiteral true relation [objectToMove; locationKey]]
  else [].

Definition getPossibleMoves (command : string) (objectToMove : string)
    (location : option Parser_Location) (state : WorldState)
    : outcome Conjunction :=
  if negb (bool_decide (objectToMove = "floor")) then
    if bool_decide (command = "take") || bool_decide (command = "grasp")
       || bool_decide (command = "pick up")
    then Return [mkLiteral true "holding" [objectToMove]]
    else if bool_decide (command = "move") || bool_decide (command = "put")
            || bool_decide (command = "drop")
    then
      location ← deref location;
      let object := ent_object (loc_entity location) in
      match obj_location object with
      | None =>
          let locationObjectKeys := getObjectKeys object state in
          Return (flat_map (λ locationObjectKey,
                    placementLiterals objectToMove (loc_relation location)
                      locationObjectKey state) locationObjectKeys)
      | Some nested =>
          inner ← deref (obj_object object);
          let targetObjects := getObjectKeys inner state in
          let locationObjects :=
            getObjectKeys (ent_object (loc_entity nested)) state in
          let requestedRelations :=
            pairRelations targetObjects (loc_relation nested) locationObjects in
          let objectRelationsThatExistsInWorld :=
            getObjectRelationsThatExistsInWorld requestedRelations state in
          Return (flat_map (λ objectRelation,
                    placementLiterals objectToMove (loc_relation location)
                      (targetObject objectRelation) state)
                    objectRelationsThatExistsInWorld)
      end
    else Return []
  else Return [].

(** The loop of [interpretCommand] over the candidate objects: every literal
    of every candidate is pushed as a conjunction of its own. *)
Fixpoint interpretCommand_loop (cmd : Parser_Command)
    (objectRelations : list ObjectRelations) (state : WorldState)
    (my_interpretation : DNFFormula) : outcome DNFFormula :=
  match objectRelations with
  | [] => Return my_interpretation
  | objectRelation :: rest =>
      results ← getPossibleMoves (cmd_command cmd) (targetObject objectRelation)
                  (cmd_location cmd) state;
      interpretCommand_loop cmd rest state
        (my_interpretation ++ map (λ result, [result]) results)
  end.

Definition interpretCommand (cmd : Parser_Command) (state : WorldState)
    : outcome DNFFormula :=
  objectRelationsThatExistsInWorld ←
    match cmd_entity cmd with
    | Some entity =>
        requestedObjectRelations ←
          getRequestedObjectRelations (ent_object entity) state;
        let existing :=
          getObjectRelationsThatExistsInWorld requestedObjectRelations state in
        if bool_decide (length existing = 0%nat)
        then Throw (Thrown "No possible objects found")
        else Return existing
    | None => Return [mkObjectRelations "itself" Nil Nil]
    end;
  my_interpretation ←
    interpretCommand_loop cmd objectRelationsThatExistsInWorld state [];
  if bool_decide (length my_interpretation = 0%nat)
  then Throw (Thrown "No possible objects to move")
  else Return my_interpretation.

(** [errors[0]] of the [catch] blocks' array: [undefined] when it is empty. *)
Definition firstError (errors : list exn) : exn :=
  match errors with
  | err :: _ => err
  | [] => ThrownUndefined
  end.

(** The [try] block of [interpret]. *)
Definition interpret_attempt (currentState : WorldState)
    (parseresult : ParseResult) : outcome InterpretationResult :=
  formula ← interpretCommand (parse parseresult) currentState;
  Return (mkInterpretationResult parseresult formula).

(** One round of the [forEach] of [interpret]: the [try] block pushes the
    result, the [catch] block pushes the error. *)
Definition interpret_step (currentState : WorldState)
    (acc : list exn * list InterpretationResult) (parseresult : ParseResult)
    : list exn * list InterpretationResult :=
  let '(errors, interpretations) := acc in
  match interpret_attempt currentState parseresult with
  | Return result => (errors, interpretations ++ [result])
  | Throw err => (errors ++ [err], interpretations)
  end.

Definition interpret (parses : list ParseResult) (currentState : WorldState)
    : outcome (list InterpretationResult) :=
  let '(errors, interpretations) :=
    foldl (interpret_step currentState) ([], []) parses in
  match interpretations with
  | _ :: _ => Return interpretations
  | [] => Throw (firstError errors)
  end.

(** ** Planner.ts: the search graph *)

Record SNode : Type := mkSNode { state : WorldState }.

(** [EdgeWithCommand<SNode> extends Edge<SNode>]. *)
Record EdgeWithCommand : Type := mkEdge {
  from : SNode;
  to : SNode;
  cost : Z;
  command : string
}.

(** [a[i]] for a number [i]: [undefined] outside the array. *)
Definition js_index {A : Type} (a : list A) (i : Z) : option A :=
  if (0 <=? i)%Z then a !! Z.to_nat i else None.

(** [a[a.length - 1]] as a value: [undefined] for the empty array. *)
Definition topOf (stack : list string) : jsstr :=
  match last stack with
  | Some object => Str object
  | None => Nil
  end.

Definition outgoingEdges (node : SNode) : outcome (list EdgeWithCommand) :=
  let st := state node in
  column ← deref (js_index (stacks st) (arm st));
  let targetObject := topOf column in
  let left :=
    if (0 <? arm st)%Z then
      [mkEdge node
         (mkSNode (mkWorldState (stacks st) (holding st) (arm st - 1)
                     (objects st) (examples st)))
         1 "l"]
    else [] in
  let right :=
    if (arm st <? Z.of_nat (length (stacks st)) - 1)%Z then
      [mkEdge node
         (mkSNode (mkWorldState (stacks st) (holding st) (arm st + 1)
                     (objects st) (examples st)))
         1 "r"]
    else [] in
  let drop :=
    if truthy (holding st)
       && (if truthy targetObject
           then isMoveValid (holding st) "ontop" targetObject st
                || isMoveValid (holding st) "inside" targetObject st
           else true)
    then
      match holding st with
      | Str held =>
          [mkEdge node
             (mkSNode (mkWorldState
                         (alter (λ stack, stack ++ [held]) (Z.to_nat (arm st))
                            (stacks st))
                         Nil (arm st) (objects st) (examples st)))
             1 "d"]
      | Nil => []
      end
    else [] in
  let pick :=
    if negb (truthy (holding st)) && negb (bool_decide (length column = 0%nat))
    then
      [mkEdge node
         (mkSNode (mkWorldState
                     (alter (λ stack, removelast stack) (Z.to_nat (arm st))
                        (stacks st))
                     (topOf column) (arm st) (objects st) (examples st)))
         1 "p"]
    else [] in
  Return (left ++ right ++ drop ++ pick).

(** [compareNodes]: the inner loop reads [one.state.stacks[i][j]] for every
    position of [theOther]; the result is [true] when it returns 1. *)
Fixpoint compareNodes_inner (oneStack : option (list string))
    (otherStack : list string) (j : nat) : outcome bool :=
  match otherStack with
  | [] => Return false
  | otherObject :: rest =>
      stack ← deref oneStack;
      let oneObject : jsstr :=
        match stack !! j with Some object => Str object | None => Nil end in
      if negb (truthy oneObject) || negb (js_eq oneObject otherObject)
      then Return true
      else compareNodes_inner oneStack rest (S j)
  end.

Fixpoint compareNodes_outer (oneStacks otherStacks : list (list string))
    (i : nat) : outcome Z :=
  match otherStacks with
  | [] => Return 0%Z
  | otherStack :: rest =>
      differ ← compareNodes_inner (oneStacks !! i) otherStack 0;
      if differ : bool then Return 1%Z
      else compareNodes_outer oneStacks rest (S i)
  end.

Definition compareNodes (one theOther : SNode) : outcome Z :=
  if negb (js_eq (holding (state one)) (holding (state theOther)))
  then Return 1%Z
  else if negb (arm (state one) =? arm (state theOther))%Z then Return 1%Z
  else compareNodes_outer (stacks (state one)) (stacks (state theOther)) 0.

(** ** Planner.ts: the goal test *)

(** [lit.args[i]]. *)
Definition arg (lit : Literal) (i : nat) : jsstr :=
  match args lit !! i with
  | Some key => Str key
  | None => Nil
  end.

Definition isInterpretationInCurrentWorldstate (_interpretation : Literal)
    (state : WorldState) : bool :=
  let relation := relation _interpretation in
  if bool_decide (relation = "beside") then
    isBeside (stacks state) (arg _interpretation 0) (arg _interpretation 1)
  else if bool_decide (relation = "leftof") then
    isLeftOf (stacks state) (arg _interpretation 0) (arg _interpretation 1)
  else if bool_decide (relation = "rightof") then
    isRightOf (stacks state) (arg _interpretation 0) (arg _interpretation 1)
  else if bool_decide (relation = "holding") then
    js_eq (holding state) (arg _interpretation 0)
  else
    existsb (λ stack, relationInStack relation stack (arg _interpretation 0)
                        (arg _interpretation 1) state)
      (stacks state).

(** The closure [isGoal] of [planInterpretation]; [_interpretation[0]] of
    an empty conjunction is [undefined], whose [relation] cannot be read. *)
Fixpoint isGoal (interpretation : DNFFormula) (node : SNode) : outcome bool :=
  match interpretation with
  | [] => Return false
  | _interpretation :: rest =>
      first ← deref (_interpretation !! 0%nat);
      if isInterpretationInCurrentWorldstate first (state node) then Return true
      else isGoal rest node
  end.

(** ** Planner.ts: the driver *)

(** [PlannerResult extends InterpretationResult]. *)
Record PlannerResult : Type := mkPlannerResult {
  interpretationresult : InterpretationResult;
  res_plan : list string
}.

Section Driver.

(** [planInterpretation] runs [aStarSearch] of Graph.ts, which is not among
    the sources; it is a parameter here.  It returns the plan, returns
    [null] (after "Could not find solution"), or throws. *)
Variable planInterpretation :
  DNFFormula → WorldState → outcome (option (list string)).

(** The [try] block of [plan]: [result.plan.length] cannot be read when the
    plan is [null]. *)
Definition plan_attempt (currentState : WorldState)
    (result : InterpretationResult) : outcome PlannerResult :=
  planned ← planInterpretation (interpretation result) currentState;
  steps ← deref planned;
  Return (mkPlannerResult result
            (if bool_decide (length steps = 0%nat)
             then steps ++ ["That is already true!"]
             else steps)).

Definition plan_step (currentState : WorldState)
    (acc : list exn * list PlannerResult)
    (result : InterpretationResult)
    : list exn * list PlannerResult :=
  let '(errors, plans) := acc in
  match plan_attempt currentState result with
  | Return result => (errors, plans ++ [result])
  | Throw err => (errors ++ [err], plans)
  end.

Definition plan (interpretations : list InterpretationResult)
    (currentState : WorldState) : outcome (list PlannerResult) :=
  let '(errors, plans) :=
    foldl (plan_step currentState) ([], []) interpretations in
  match plans with
  | _ :: _ => Return plans
  | [] => Throw (firstError errors)
  end.

End Driver.

(** ** Interpreter.ts: the column of an object *)

(** [getStackNumber]: the inner loop returns from the function at the
    first entry that is the object; [null] when no stack has it. *)
Fixpoint getStackNumber_loop (stacks : list (list string)) (stack_number : nat)
    (searched_object : jsstr) : option Z :=
  match stacks with
  | [] => None
  | stack :: rest =>
      if existsb (λ object : string, js_eq object searched_object) stack
      then Some (Z.of_nat stack_number)
      else getStackNumber_loop rest (S stack_number) searched_object
  end.

Definition getStackNumber (stacks : list (list string)) (searched_object : jsstr)
    : option Z :=
  getStackNumber_loop stacks 0 searched_object.

(** ** Planner.ts: the heuristic *)

(** A JavaScript number as the heuristic computes it: an integer, or [NaN],
    which is what arithmetic on [undefined] gives. *)
Inductive jsnum : Type :=
  | Num (z : Z)
  | NaN.

(** [a + b]. *)
Definition num_add (a b : jsnum) : jsnum :=
  match a, b with
  | Num x, Num y => Num (x + y)
  | _, _ => NaN
  end.

(** A stack number in arithmetic and in [<], [>]: [null] counts as 0. *)
Definition toNumber (n : option Z) : Z :=
  match n with
  | Some z => z
  | None => 0%Z
  end.

(** [accessTargetObject]: the inner loop [break]s in the very round that
    sets [foundTargetObject]. *)
Fixpoint accessTargetObject_scan (stack : list string) (targetObject : jsstr)
    (foundTargetObject : bool) (nrAbove : Z) : bool * Z :=
  match stack with
  | [] => (foundTargetObject, nrAbove)
  | object :: rest =>
      let nrAbove' := if foundTargetObject then (nrAbove + 1)%Z else nrAbove in
      if js_eq object targetObject then (true, nrAbove')
      else accessTargetObject_scan rest targetObject foundTargetObject nrAbove'
  end.

Fixpoint accessTargetObject_loop (stacks : list (list string))
    (targetObject : jsstr) (foundTargetObject : bool) (nrAbove : Z) : Z :=
  match stacks with
  | [] => 0%Z
  | stack :: rest =>
      let '(foundTargetObject', nrAbove') :=
        accessTargetObject_scan stack targetObject foundTargetObject nrAbove in
      if foundTargetObject' then (nrAbove' * 3)%Z
      else accessTargetObject_loop rest targetObject foundTargetObject' nrAbove'
  end.

Definition accessTargetObject (targetObject : jsstr) (state : WorldState) : Z :=
  accessTargetObject_loop (stacks state) targetObject false 0.

(** [getHeuristicForGoal]: [minMove] and [minAccessTargetObject] are
    [undefined] in the branches that do not assign them, and the final sum
    is then [NaN]. *)
Definition getHeuristicForGoal (_interpretation : Literal) (state : WorldState)
    : jsnum :=
  let relation := relation _interpretation in
  let stackNumber0 := getStackNumber (stacks state) (arg _interpretation 0) in
  let stackNumber1 := getStackNumber (stacks state) (arg _interpretation 1) in
  if bool_decide (relation = "holding") then
    Num (Z.abs (arm state - toNumber stackNumber0))
  else if js_eq (arg _interpretation 1) "floor" then
    if js_eq (arg _interpretation 0) (holding state) then Num 1
    else Num (Z.abs (arm state - toNumber stackNumber0))
  else
    let minArm :=
      Z.min (Z.abs (arm state - toNumber stackNumber0))
            (Z.abs (arm state - toNumber stackNumber1)) in
    let '(minMove, minAccessTargetObject) :=
      if bool_decide (relation = "inside") || bool_decide (relation = "ontop")
         || bool_decide (relation = "above") || bool_decide (relation = "under")
      then
        (Num (Z.abs (toNumber stackNumber0 - toNumber stackNumber1)),
         Num (accessTargetObject (arg _interpretation 0) state))
      else if bool_decide (relation = "beside") then
        (if bool_decide (stackNumber0 = stackNumber1) then Num 1
         else Num (Z.abs (toNumber stackNumber0 - toNumber stackNumber1) - 1),
         NaN)
      else if bool_decide (relation = "leftof") then
        (if (toNumber stackNumber1 <? toNumber stackNumber0)%Z
         then Num (toNumber stackNumber0 - toNumber stackNumber1)
         else Num 0,
         NaN)
      else if bool_decide (relation = "rightof") then
        (if (toNumber stackNumber0 <? toNumber stackNumber1)%Z
         then Num (toNumber stackNumber1 - toNumber stackNumber0)
         else Num 0,
         NaN)
      else (NaN, NaN) in
    num_add (num_add minMove (Num minArm)) minAccessTargetObject.

(** The closure [heuristic] of [planInterpretation]: the least value over
    the first literals, starting from 9999999; [h < minHeuristic] is false
    for [NaN]. *)
Fixpoint heuristic_loop (interpretation : DNFFormula) (node : SNode)
    (minHeuristic : Z) : outcome Z :=
  match interpretation with
  | [] => Return minHeuristic
  | _interpretation :: rest =>
      first ← deref (_interpretation !! 0%nat);
      heuristic_loop rest node
        match getHeuristicForGoal first (state node) with
        | Num heuristicValue =>
            if (heuristicValue <? minHeuristic)%Z then heuristicValue
            else minHeuristic
        | NaN => minHeuristic
        end
  end.

Definition heuristic (interpretation : DNFFormula) (node : SNode) : outcome Z :=
  heuristic_loop interpretation node 9999999.

(** ** Planner.ts: from the path to the plan *)

(** The inner loop of the plan generation: the commands of the edges whose
    target compares equal to the next node of the path. *)
Fixpoint matchingCommands (pathNode : SNode) (edges : list EdgeWithCommand)
    : outcome (list string) :=
  match edges with
  | [] => Return []
  | edge :: rest =>
      different ← compareNodes pathNode (to edge);
      commands ← matchingCommands pathNode rest;
      Return (if (different =? 0)%Z then command edge :: commands else commands)
  end.

(** The outer loop, over the pairs of consecutive nodes of the path. *)
Fixpoint planSteps (path : list SNode) : outcome (list string) :=
  match path with
  | node :: ((pathNode :: _) as rest) =>
      edges ← outgoingEdges node;
      commands ← matchingCommands pathNode edges;
      later ← planSteps rest;
      Return (commands ++ later)
  | _ => Return []
  end.

Section Planning.

(** The call [aStarSearch(graph, startNode, isGoal, heuristic, 500)]:
    [aStarSearch] is in Graph.ts, which is not among the sources.  The
    parameter gives what the call does for a goal formula and a start node:
    it finds a path (the nodes after the start node), returns [null], or
    throws. *)
Variable search : DNFFormula → SNode → outcome (option (list SNode)).

Definition planInterpretation (interpretation : DNFFormula)
    (state : WorldState) : outcome (option (list string)) :=
  let startNode := mkSNode state in
  result ← search interpretation startNode;
  match result with
  | None => Return None
  | Some path =>
      steps ← planSteps (startNode :: path);
      Return (Some steps)
  end.

End Planning.

(** ** Notions used to state the properties *)

(** The results and the errors of a list of attempts, in order. *)
Definition successes {A : Type} (attempts : list (outcome A)) : list A :=
  omap (λ attempt, match attempt with Return a => Some a | Throw _ => None end)
    attempts.

Definition failures {A : Type} (attempts : list (outcome A)) : list exn :=
  omap (λ attempt, match attempt with Return _ => None | Throw e => Some e end)
    attempts.

(** The meaning of a formula in disjunctive normal form: a literal of
    polarity [true] holds when its relation does, one of polarity [false]
    when it does not; a conjunction needs all its literals, a formula some
    conjunction. *)
Definition literalTrue (lit : Literal) (state : WorldState) : bool :=
  if polarity lit then isInterpretationInCurrentWorldstate lit state
  else negb (isInterpretationInCurrentWorldstate lit state).

Definition conjunctionTrue (conjunction : Conjunction) (state : WorldState)
    : bool :=
  forallb (λ lit, literalTrue lit state) conjunction.

Definition formulaTrue (formula : DNFFormula) (state : WorldState) : bool :=
  existsb (λ conjunction, conjunctionTrue conjunction state) formula.

(** In how many places a key is: one for the arm if it holds the key, and
    one for every entry of every stack that is the key. *)
Definition keyCount (key : string) (stack : list string) : nat :=
  length (filter (λ object, object = key) stack).

Definition occurrences (key : string) (state : WorldState) : nat :=
  (if js_eq (holding state) key then 1 else 0)
  + sum_list (map (keyCount key) (stacks state)).

(** Every key of [keys] is in exactly one place: held and in no stack, or
    not held and once in one stack. *)
Definition placedOnce (keys : list string) (state : WorldState) : Prop :=
  ∀ key, key ∈ keys → occurrences key state = 1%nat.

(** The transition relation of the search graph. *)
Definition successor (state state' : WorldState) : Prop :=
  ∃ edges edge,
    outgoingEdges (mkSNode state) = Return edges
    ∧ edge ∈ edges
    ∧ to edge = mkSNode state'.

(** The node has an outgoing edge labelled ["d"]. *)
Definition generatesDrop (node : SNode) : Prop :=
  ∃ edges edge,
    outgoingEdges node = Return edges ∧ edge ∈ edges ∧ command edge = "d".

(** The condition under which a drop is expected over [column]: something
    is held, and the column is empty or the rule table lets the held object
    go onto or into the object at its top. *)
Definition dropEnabled (st : WorldState) (column : list string) : Prop :=
  holding st ≠ Nil
  ∧ (column = []
     ∨ isMoveValid (holding st) "ontop" (topOf column) st = true
     ∨ isMoveValid (holding st) "inside" (topOf column) st = true).

(** No key of the state is the empty string, which the planner's presence
    tests take for "no object". *)
Definition keysNonEmpty (st : WorldState) : Prop :=
  holding st ≠ Str "" ∧ ∀ stack, stack ∈ stacks st → "" ∉ stack.

(** A conjunction made of one literal, of polarity [true]. *)
Definition singlePositive (conjunction : Conjunction) : Prop :=
  ∃ lit, conjunction = [lit] ∧ polarity lit = true.

(** The number of objects of a state: one if the gripper holds something,
    and the heights of the stacks. *)
Definition load (st : WorldState) : nat :=
  (if truthy (holding st) then 1 else 0) + sum_list (map length (stacks st)).

(** A table entry passes the three filters of an object description: each
    filter is absent, equal to the entry's value, or, for the form,
    ["anyform"]. *)
Definition matchesDescription (object : Parser_Object) (def : ObjectDefinition)
    : Prop :=
  (obj_form object = Str (form_name (form def)) ∨ obj_form object = Str "anyform")
  ∧ (obj_color object = Str (color def) ∨ obj_color object = Nil)
  ∧ (obj_size object = Str (size_name (size def)) ∨ obj_size object = Nil).

(** The key has no entry in the object table. *)
Definition notInTable (key : string) (st : WorldState) : Prop :=
  ∀ def, (key, def) ∉ objects st.

(** The commands that place an object. *)
Definition placementCommand (command : string) : Prop :=
  command = "move" ∨ command = "put" ∨ command = "drop".

(** The arm is over one of the columns. *)
Definition armInRange (st : WorldState) : Prop :=
  (0 ≤ arm st < Z.of_nat (length (stacks st)))%Z.

(** What is under the dropped object: the top of the column, or the floor. *)
Definition support (column : list string) : string :=
  match last column with
  | Some object => object
  | None => "floor"
  end.

(** The first literal of the conjunction exists and holds. *)
Definition firstLiteralHolds (conjunction : Conjunction) (st : WorldState)
    : bool :=
  match conjunction !! 0%nat with
  | Some lit => isInterpretationInCurrentWorldstate lit st
  | None => false
  end.

(** A path that follows edges of the graph from [node], with the commands
    of these edges. *)
Inductive follows : SNode → list SNode → list string → Prop :=
  | follows_nil node : follows node [] []
  | follows_cons node edges edge path commands :
      outgoingEdges node = Return edges →
      edge ∈ edges →
      follows (to edge) path commands →
      follows node (to edge :: path) (command edge :: commands).

(** What the drivers do with one item, in terms of the functions they
    call.  An interpretation is planned when [planInterpretation] returns a
    plan; an empty plan gets the one remark of [plan]. *)
Definition planned
    (planInterpretation : DNFFormula → WorldState → outcome (option (list string)))
    (currentState : WorldState) (result : InterpretationResult)
    : option PlannerResult :=
  match planInterpretation (interpretation result) currentState with
  | Return (Some []) => Some (mkPlannerResult result ["That is already true!"])
  | Return (Some steps) => Some (mkPlannerResult result steps)
  | _ => None
  end.

(** The error recorded for an interpretation: what [planInterpretation]
    throws, or the [TypeError] of a [null] plan. *)
Definition planError
    (planInterpretation : DNFFormula → WorldState → outcome (option (list string)))
    (currentState : WorldState) (result : InterpretationResult) : option exn :=
  match planInterpretation (interpretation result) currentState with
  | Throw err => Some err
  | Return None => Some TypeError
  | Return (Some _) => None
  end.

(** A parse is resolved when [interpretCommand] returns a formula for its
    command. *)
Definition resolved (currentState : WorldState) (parseresult : ParseResult)
    : option InterpretationResult :=
  match interpretCommand (parse parseresult) currentState with
  | Return formula => Some (mkInterpretationResult parseresult formula)
  | Throw _ => None
  end.

(** The error recorded for a parse: what [interpretCommand] throws. *)
Definition resolveError (currentState : WorldState) (parseresult : ParseResult)
    : option exn :=
  match interpretCommand (parse parseresult) currentState with
  | Return _ => None
  | Throw err => Some err
  end.

(** ** Example worlds *)

Definition example_objects : list (string * ObjectDefinition) :=
  [("a", mkObjectDefinition brick large "green");
   ("b", mkObjectDefinition ball small "white");
   ("c", mkObjectDefinition table large "red");
   ("e", mkObjectDefinition ball large "white");
   ("k", mkObjectDefinition box large "yellow")].

(** The world of section 8 of the specification: [b] on [a] in column 0,
    [c] alone in column 1. *)
Definition small_world : WorldState :=
  mkWorldState [["a"; "b"]; ["c"]] Nil 0 example_objects [].

(** The same objects, with [b] in the gripper over column 1. *)
Definition holding_world : WorldState :=
  mkWorldState [["a"]; ["c"]] "b" 1 example_objects [].

(** A ball lying in a box. *)
Definition box_world : WorldState :=
  mkWorldState [["k"; "e"]; []] Nil 0 example_objects [].

(** A world with an object whose key is the empty string: a small box. *)
Definition emptykey_objects : list (string * ObjectDefinition) :=
  [("", mkObjectDefinition box small "blue");
   ("e", mkObjectDefinition ball large "white")].

(** The gripper holds the box [""] over the column of the ball. *)
Definition emptykey_held_world : WorldState :=
  mkWorldState [["e"]] "" 0 emptykey_objects [].

(** The gripper holds the ball over the column of the box [""]. *)
Definition emptykey_top_world : WorldState :=
  mkWorldState [[""]] "e" 0 emptykey_objects [].


Definition put_it_on_the_floor : Parser_Command :=
  mkCommand "put" None
    (Some (mkLocation "ontop"
             (mkEntity "the" (mkObject "floor" Nil Nil None None)))).

(** A goal of one conjunction with two literals: hold [b], with [a] on the
    floor. *)
Definition hold_b_with_a_down : DNFFormula :=
  [[mkLiteral true "holding" ["b"]; mkLiteral true "ontop" ["a"; "floor"]]].

(** [b] held, [a] on top of [c]. *)
Definition a_on_c_world : WorldState :=
  mkWorldState [["c"; "a"]; []] "b" 0 example_objects [].

(** Two states that differ in the height of column 0. *)
Definition tall_world : WorldState :=
  mkWorldState [["a"; "b"]] Nil 0 example_objects [].

Definition short_world : WorldState :=
  mkWorldState [["a"]] Nil 0 example_objects [].

(** The location "on the floor". *)
Definition on_the_floor : Parser_Location :=
  mkLocation "ontop" (mkEntity "the" (mkObject "floor" Nil Nil None None)).

(** [small_world] after picking [b], and after moving the arm to the
    right. *)
Definition picked_world : WorldState :=
  mkWorldState [["a"]; ["c"]] "b" 0 example_objects [].

Definition moved_world : WorldState :=
  mkWorldState [["a"; "b"]; ["c"]] Nil 1 example_objects [].

(** The two edges of [small_world]. *)
Definition right_edge : EdgeWithCommand :=
  mkEdge (mkSNode small_world) (mkSNode moved_world) 1 "r".

Definition pick_edge : EdgeWithCommand :=
  mkEdge (mkSNode small_world) (mkSNode picked_world) 1 "p".

Definition small_world_edges : list EdgeWithCommand := [right_edge; pick_edge].

(** [short_world] with the table [c] in a second column. *)
Definition wide_world : WorldState :=
  mkWorldState [["a"]; ["c"]] Nil 0 example_objects [].


(** A search that finds the pick of [b], and one that finds nothing. *)
Definition search_pick (interpretation : DNFFormula) (startNode : SNode)
    : outcome (option (list SNode)) :=
  Return (Some [mkSNode picked_world]).


(** * Properties *)

(** ** The object table *)

Lemma js_eq_true (a b : jsstr) : js_eq a b = true ↔ a = b.
Proof. unfold js_eq. apply bool_decide_eq_true. Qed.

Lemma js_eq_false (a b : jsstr) : js_eq a b = false ↔ a ≠ b.
Proof. unfold js_eq. apply bool_decide_eq_false. Qed.

Lemma js_eq_refl (a : jsstr) : js_eq a a = true.
Proof. by apply js_eq_true. Qed.

Lemma js_eq_Str (a b : string) : js_eq a b = bool_decide (a = b).
Proof.
  unfold js_eq. apply bool_decide_ext. split; [by intros [= ->] | by intros ->].
Qed.

(** An entry that gives a form also gives a size. *)
Lemma getObjectForm_loop_size entries key f :
  getObjectForm_loop entries key = Some f →
  is_Some (getObjectSize_loop entries key).
Proof.
  induction entries as [|[k def] entries IH]; simpl; [done|].
  destruct (js_eq k key); eauto.
Qed.

(** Only the synthetic floor has a form without a size. *)
Lemma getObjectForm_size key st f :
  getObjectForm key st = Some f → f ≠ floor →
  is_Some (getObjectSize key st).
Proof.
  unfold getObjectForm, getObjectSize.
  destruct (js_eq key "floor"); [congruence|].
  intros H _. by eapply getObjectForm_loop_size.
Qed.

(** ** The rule table *)

(** C6.  No object may be moved into any relation with itself:
    [isMoveValid(x, relation, x)] is [false] for every key and relation,
    whichever branch of the rule table the form and size of [x] select. *)
Theorem isMoveValid_self (x : jsstr) (relation : string) (st : WorldState) :
  isMoveValid x relation x st = false.
Proof.
  unfold isMoveValid. rewrite js_eq_refl.
  destruct (getObjectSize x st) as [sz|] eqn:Hsize.
  - unfold form_is, size_is.
    by destruct (getObjectForm x st) as [[]|], sz,
      (bool_decide (relation = "inside")), (bool_decide (relation = "ontop")).
  - destruct (getObjectForm x st) as [f|] eqn:Hform.
    + destruct (decide (f = floor)) as [->|Hfloor].
      * unfold form_is, size_is.
        by destruct (bool_decide (relation = "inside")),
          (bool_decide (relation = "ontop")).
      * destruct (getObjectForm_size x st f Hform Hfloor) as [sz Hsz].
        congruence.
    + unfold form_is, size_is.
      by destruct (bool_decide (relation = "inside")),
        (bool_decide (relation = "ontop")).
Qed.

(** C9.  The rule table reads nothing of the state but its object table:
    two states with the same table give the same answer, whatever their
    stacks, arm and held object. *)
Theorem isMoveValid_objects_only (objectToMove : jsstr) (relation : string)
    (targetObject : jsstr) (st1 st2 : WorldState) :
  objects st1 = objects st2 →
  isMoveValid objectToMove relation targetObject st1
  = isMoveValid objectToMove relation targetObject st2.
Proof.
  intros Hobjects.
  assert (Hform : ∀ key, getObjectForm key st1 = getObjectForm key st2)
    by (intros key; unfold getObjectForm; by rewrite Hobjects).
  assert (Hsize : ∀ key, getObjectSize key st1 = getObjectSize key st2)
    by (intros key; unfold getObjectSize; by rewrite Hobjects).
  unfold isMoveValid. by rewrite !Hform, !Hsize.
Qed.

(** [isMoveValid_objects_only] on two worlds over [example_objects]. *)
Lemma isMoveValid_objects_only_witness :
  isMoveValid "e" "inside" "k" small_world
  = isMoveValid "e" "inside" "k" holding_world.
Proof.
  apply (isMoveValid_objects_only "e" "inside" "k" small_world holding_world).
  reflexivity.
Defined.

(** ** The column scan of [isBeside], [isLeftOf] and [isRightOf] *)

Section StackNr.

Variables a b : string.

(** A stack with neither object leaves the two numbers as they are. *)
Lemma stackNr_scan_miss stack n nrs :
  a ∉ stack → b ∉ stack → stackNr_scan stack n a b nrs = nrs.
Proof.
  induction stack as [|object stack IH]; simpl; [done|].
  rewrite !not_elem_of_cons. intros [Ha ?] [Hb ?].
  rewrite !js_eq_Str. repeat case_bool_decide; try congruence. by apply IH.
Qed.

(** A stack without the first object keeps the first number, and one
    without the second keeps the second. *)
Lemma stackNr_scan_fst stack n nrs :
  a ∉ stack → (stackNr_scan stack n a b nrs).1 = nrs.1.
Proof.
  induction stack as [|object stack IH]; simpl; [done|].
  rewrite not_elem_of_cons. intros [Ha ?].
  rewrite !js_eq_Str. repeat case_bool_decide; try congruence; [done|].
  by apply IH.
Qed.

Lemma stackNr_scan_snd stack n nrs :
  b ∉ stack → (stackNr_scan stack n a b nrs).2 = nrs.2.
Proof.
  induction stack as [|object stack IH]; simpl; [done|].
  rewrite not_elem_of_cons. intros [Hb ?].
  rewrite !js_eq_Str. repeat case_bool_decide; try congruence; [done|].
  by apply IH.
Qed.

(** A scan changes at most one of the two numbers, to the stack's. *)
Lemma stackNr_scan_cases stack n nrs :
  stackNr_scan stack n a b nrs = nrs
  ∨ stackNr_scan stack n a b nrs = (n, nrs.2)
  ∨ stackNr_scan stack n a b nrs = (nrs.1, n).
Proof.
  induction stack as [|object stack IH]; simpl; [by left|].
  destruct (js_eq object a); [by right; left|].
  destruct (js_eq object b); [by right; right|]. done.
Qed.

(** A stack with one of the objects changes exactly one number. *)
Lemma stackNr_scan_hit stack n nrs :
  a ∈ stack ∨ b ∈ stack →
  stackNr_scan stack n a b nrs = (n, nrs.2)
  ∨ stackNr_scan stack n a b nrs = (nrs.1, n).
Proof.
  induction stack as [|object stack IH]; simpl.
  - intros [H|H]; by apply elem_of_nil in H.
  - rewrite !elem_of_cons, !js_eq_Str. intros H.
    case_bool_decide; [by left|]. case_bool_decide; [by right|].
    apply IH. destruct H as [[?|?]|[?|?]]; [congruence|by left|congruence|by right].
Qed.

Lemma stackNr_loop_app stacks1 stacks2 i nrs :
  stackNr_loop (stacks1 ++ stacks2) i a b nrs
  = stackNr_loop stacks2 (i + length stacks1) a b
      (stackNr_loop stacks1 i a b nrs).
Proof.
  revert i nrs. induction stacks1 as [|stack stacks1 IH]; intros i nrs; simpl.
  - by rewrite Nat.add_0_r.
  - rewrite IH. f_equal. lia.
Qed.

Lemma stackNr_loop_miss stacks i nrs :
  (∀ stack, stack ∈ stacks → a ∉ stack) →
  (∀ stack, stack ∈ stacks → b ∉ stack) →
  stackNr_loop stacks i a b nrs = nrs.
Proof.
  revert i nrs. induction stacks as [|stack stacks IH]; intros i nrs Ha Hb;
    simpl; [done|].
  rewrite stackNr_scan_miss by (first [apply Ha | apply Hb]; left).
  apply IH; intros ? ?; first [apply Ha | apply Hb]; by right.
Qed.

Lemma stackNr_loop_fst stacks i nrs :
  (∀ stack, stack ∈ stacks → a ∉ stack) →
  (stackNr_loop stacks i a b nrs).1 = nrs.1.
Proof.
  revert i nrs. induction stacks as [|stack stacks IH]; intros i nrs Ha;
    simpl; [done|].
  rewrite IH by (intros ? ?; apply Ha; by right).
  apply stackNr_scan_fst, Ha. left.
Qed.

Lemma stackNr_loop_snd stacks i nrs :
  (∀ stack, stack ∈ stacks → b ∉ stack) →
  (stackNr_loop stacks i a b nrs).2 = nrs.2.
Proof.
  revert i nrs. induction stacks as [|stack stacks IH]; intros i nrs Hb;
    simpl; [done|].
  rewrite IH by (intros ? ?; apply Hb; by right).
  apply stackNr_scan_snd, Hb. left.
Qed.

(** Whatever the loop writes is the number of a stack, hence not negative. *)
Lemma stackNr_loop_range stacks i nrs :
  ((stackNr_loop stacks i a b nrs).1 = nrs.1
   ∨ (0 ≤ (stackNr_loop stacks i a b nrs).1)%Z)
  ∧ ((stackNr_loop stacks i a b nrs).2 = nrs.2
     ∨ (0 ≤ (stackNr_loop stacks i a b nrs).2)%Z).
Proof.
  revert i nrs. induction stacks as [|stack stacks IH]; intros i nrs; simpl;
    [by split; left|].
  specialize (IH (S i) (stackNr_scan stack (Z.of_nat i) a b nrs)).
  destruct (stackNr_scan_cases stack (Z.of_nat i) nrs) as [E|[E|E]];
    rewrite E in IH |- *; simpl in IH; destruct IH as [[?|?] [?|?]];
    split; first [by left | right; lia].
Qed.

End StackNr.

(** C10, as the code has it.  [isBeside] answers [false] when one of the
    two keys is in no stack (the held object, or a key absent from the
    world), and, in a world whose stacks hold every key at most once, when
    both keys are in the same stack. *)
Theorem isBeside_false (stacks : list (list string)) (a b : string) :
  (∀ stack, stack ∈ stacks → a ∉ stack)
  ∨ (∀ stack, stack ∈ stacks → b ∉ stack)
  ∨ (NoDup (concat stacks) ∧ ∃ stack, stack ∈ stacks ∧ a ∈ stack ∧ b ∈ stack) →
  isBeside stacks a b = false.
Proof.
  unfold isBeside. intros [Ha|[Hb|[Hnodup (stack & Hstack & Ha & Hb)]]].
  - pose proof (stackNr_loop_fst a b stacks 0 (-10, -10)%Z Ha) as Hfst.
    destruct (stackNr_loop_range a b stacks 0 (-10, -10)%Z) as [_ Hsnd].
    destruct (stackNr_loop stacks 0 a b (-10, -10)%Z) as [f s]; simpl in *.
    apply Z.eqb_neq. lia.
  - pose proof (stackNr_loop_snd a b stacks 0 (-10, -10)%Z Hb) as Hsnd.
    destruct (stackNr_loop_range a b stacks 0 (-10, -10)%Z) as [Hfst _].
    destruct (stackNr_loop stacks 0 a b (-10, -10)%Z) as [f s]; simpl in *.
    apply Z.eqb_neq. lia.
  - apply list_elem_of_split in Hstack as (before & after & ->).
    rewrite concat_app, concat_cons in Hnodup.
    apply NoDup_app in Hnodup as (_ & Hbefore & Hnodup).
    apply NoDup_app in Hnodup as (_ & Hafter & _).
    assert (Hout : ∀ key other, key ∈ stack →
              other ∈ before ∨ other ∈ after → key ∉ other).
    { intros key other Hkey [Hother|Hother] Hin.
      - apply (Hbefore key); [|apply elem_of_app; by left].
        apply list_elem_of_In, in_concat. exists other.
        by rewrite <- !list_elem_of_In.
      - apply (Hafter key Hkey).
        apply list_elem_of_In, in_concat. exists other.
        by rewrite <- !list_elem_of_In. }
    rewrite stackNr_loop_app. cbn [stackNr_loop].
    rewrite (stackNr_loop_miss a b before) by (intros; apply Hout; auto).
    rewrite (stackNr_loop_miss a b after) by (intros; apply Hout; auto).
    destruct (stackNr_scan_hit a b stack (Z.of_nat (0 + length before))
                (-10, -10)%Z) as [E|E]; [by left| |]; rewrite E; simpl;
      apply Z.eqb_neq; lia.
Qed.

(** [isBeside_false] on two keys of one stack, and on a held key. *)
Lemma isBeside_false_witness :
  isBeside (stacks small_world) "a" "b" = false
  ∧ isBeside (stacks holding_world) "b" "c" = false.
Proof.
  split.
  - apply (isBeside_false (stacks small_world) "a" "b"). right. right. split.
    + apply (bool_decide_unpack _). vm_compute. exact I.
    + exists ["a"; "b"]. split; [left|]. split; [left|right; left].
  - apply (isBeside_false (stacks holding_world) "b" "c"). left.
    intros stack [->|[->|[]%elem_of_nil]%elem_of_cons]%elem_of_cons
      [?|[]%elem_of_nil]%elem_of_cons; discriminate.
Defined.

(** With a key in two stacks, [isBeside] can answer [true] for two keys of
    one stack: [a] and [b] share the second stack, and [a] is also in the
    first. *)
Lemma isBeside_repeated_key :
  isBeside [["a"]; ["b"; "a"]] "a" "b" = true
  ∧ ∃ stack, stack ∈ [["a"]; ["b"; "a"]] ∧ "a" ∈ stack ∧ "b" ∈ stack.
Proof.
  split; [reflexivity|].
  exists ["b"; "a"]. split; [right; left|]. split; [right; left|left].
Qed.

(** ** [isOnTop] *)

(** Once the object below has been seen, the next entry decides. *)
Lemma isOnTop_loop_found (stack : list string) (key : nat) (above below : string) :
  isOnTop_loop stack key true above below = true ↔ stack !! 0%nat = Some above.
Proof.
  destruct stack as [|object stack]; simpl; [done|].
  rewrite js_eq_Str, bool_decide_eq_true. split; congruence.
Qed.

Lemma isOnTop_loop_spec (stack : list string) (key : nat) (above below : string) :
  NoDup stack →
  isOnTop_loop stack key false above below = true
  ↔ (∃ i, stack !! i = Some below ∧ stack !! S i = Some above)
    ∨ (key = 0%nat ∧ below = "floor" ∧ stack !! 0%nat = Some above).
Proof.
  revert key. induction stack as [|object stack IH]; intros key Hnodup; simpl.
  - split; [done|]. by intros [(i & ? & _)|(_ & _ & ?)].
  - apply NoDup_cons in Hnodup as [Hfresh Hnodup].
    rewrite !js_eq_Str.
    destruct (bool_decide (below = "floor") && bool_decide (object = above)
              && bool_decide (key = 0%nat)) eqn:Hfloor.
    + apply andb_prop in Hfloor as [Hfloor ?%bool_decide_eq_true].
      apply andb_prop in Hfloor as [?%bool_decide_eq_true ?%bool_decide_eq_true].
      subst. split; [|done]. intros _. by right.
    + assert (Hnot : ¬ (key = 0%nat ∧ below = "floor" ∧ Some object = Some above)).
      { intros (-> & -> & [= ->]).
        by rewrite !bool_decide_eq_true_2 in Hfloor. }
      destruct (decide (object = below)) as [->|Hbelow].
      * rewrite bool_decide_eq_true_2, isOnTop_loop_found by done. split.
        -- intros ?. left. by exists 0%nat.
        -- intros [(i & Hi & Hnext)|?]; [|done].
           destruct i as [|i]; [done|].
           simpl in Hi. apply list_elem_of_lookup_2 in Hi. done.
      * rewrite bool_decide_eq_false_2, IH by done. split.
        -- intros [(i & ? & ?)|(? & _)]; [|done]. left. by exists (S i).
        -- intros [(i & Hi & Hnext)|?]; [|done].
           destruct i as [|i]; [simpl in Hi; congruence|].
           left. by exists i.
Qed.

(** C3, as the code has it.  In a stack without repeated keys,
    [isOnTop(stack, above, below)] is [true] exactly when the form of
    [above] is not floor and either [above] is the entry right after
    [below], or [below] is ["floor"] and [above] is entry 0.  The form of
    [below] is never read: the answer is the same over a box. *)
Theorem isOnTop_spec (stack : list string) (above below : string)
    (st : WorldState) :
  NoDup stack →
  isOnTop stack above below st = true
  ↔ getObjectForm above st ≠ Some floor
    ∧ ((∃ i, stack !! i = Some below ∧ stack !! S i = Some above)
       ∨ (below = "floor" ∧ stack !! 0%nat = Some above)).
Proof.
  intros Hnodup. unfold isOnTop, form_is.
  case_bool_decide as Hform; simpl.
  - split; [done|]. by intros [? _].
  - rewrite isOnTop_loop_spec by done. split.
    + intros [?|(_ & ? & ?)]; split; auto.
    + intros [_ [?|[? ?]]]; auto.
Qed.

(** [isOnTop_spec] on column 0 of [small_world]. *)
Lemma isOnTop_spec_witness :
  isOnTop ["a"; "b"] "b" "a" small_world = true
  ↔ getObjectForm "b" small_world ≠ Some floor
    ∧ ((∃ i, ["a"; "b"] !! i = Some "a" ∧ ["a"; "b"] !! S i = Some "b")
       ∨ ("a" = "floor" ∧ ["a"; "b"] !! 0%nat = Some "b")).
Proof.
  apply (isOnTop_spec ["a"; "b"] "b" "a" small_world).
  apply (bool_decide_unpack _). vm_compute. exact I.
Defined.

(** [isOnTop] holds for the ball that lies in the box of [box_world]. *)
Lemma isOnTop_on_box :
  isOnTop ["k"; "e"] "e" "k" box_world = true
  ∧ getObjectForm "k" box_world = Some box.
Proof. split; reflexivity. Qed.

(** ** The transitions of the search graph *)

Lemma js_index_Some {A : Type} (a : list A) (i : Z) (x : A) :
  js_index a i = Some x ↔ (0 ≤ i)%Z ∧ a !! Z.to_nat i = Some x.
Proof.
  unfold js_index. destruct (Z.leb_spec 0 i).
  - split; [by intros ?|by intros [_ ?]].
  - split; [done|]. intros [? _]. lia.
Qed.

Lemma truthy_Str (v : jsstr) :
  truthy v = true ↔ ∃ key : string, v = Str key ∧ key ≠ "".
Proof.
  destruct v as [|s]; simpl.
  - split; [done|]. by intros (? & ? & _).
  - rewrite negb_true_iff, bool_decide_eq_false. split.
    + intros ?. by exists s.
    + by intros (? & [= <-] & ?).
Qed.

(** A falsy [holding] is not a key other than the empty string. *)
Lemma falsy_not_key (v : jsstr) (key : string) :
  truthy v = false → key ≠ "" → js_eq v key = false.
Proof.
  intros Hv Hkey. apply js_eq_false. intros ->. simpl in Hv.
  apply negb_false_iff, bool_decide_eq_true in Hv. done.
Qed.

(** The four transitions, read off [outgoingEdges]. *)
Lemma successor_cases (s s' : WorldState) :
  successor s s' →
  ∃ column,
    stacks s !! Z.to_nat (arm s) = Some column
    ∧ (s' = mkWorldState (stacks s) (holding s) (arm s - 1) (objects s)
              (examples s)
       ∨ s' = mkWorldState (stacks s) (holding s) (arm s + 1) (objects s)
                (examples s)
       ∨ (∃ held : string,
            holding s = Str held ∧ held ≠ ""
            ∧ s' = mkWorldState
                     (alter (λ stack, stack ++ [held]) (Z.to_nat (arm s))
                        (stacks s))
                     Nil (arm s) (objects s) (examples s))
       ∨ (truthy (holding s) = false ∧ column ≠ []
          ∧ s' = mkWorldState
                   (alter (λ stack, removelast stack) (Z.to_nat (arm s))
                      (stacks s))
                   (topOf column) (arm s) (objects s) (examples s))).
Proof.
  intros (edges & edge & Hedges & Hedge & Hto).
  unfold outgoingEdges in Hedges. simpl in Hedges.
  destruct (js_index (stacks s) (arm s)) as [column|] eqn:Hcolumn; [|done].
  apply js_index_Some in Hcolumn as [_ Hcolumn].
  simpl in Hedges. injection Hedges as <-. exists column. split; [done|].
  rewrite !elem_of_app in Hedge. destruct Hedge as [H|[H|[H|H]]].
  - destruct (0 <? arm s)%Z; [|by apply elem_of_nil in H].
    apply list_elem_of_singleton in H as ->. injection Hto as <-. by left.
  - destruct (arm s <? Z.of_nat (length (stacks s)) - 1)%Z;
      [|by apply elem_of_nil in H].
    apply list_elem_of_singleton in H as ->. injection Hto as <-.
    right. by left.
  - destruct (truthy (holding s)) eqn:Hheld; [|by apply elem_of_nil in H].
    simpl in H.
    destruct (if truthy (topOf column) then _ else _);
      [|by apply elem_of_nil in H].
    apply truthy_Str in Hheld as (held & Hholding & Hheld).
    rewrite Hholding in H.
    apply list_elem_of_singleton in H as ->. injection Hto as <-.
    right. right. left. by exists held.
  - destruct (truthy (holding s)) eqn:Hheld; [by apply elem_of_nil in H|].
    simpl in H. case_bool_decide as Hempty; [by apply elem_of_nil in H|].
    apply list_elem_of_singleton in H as ->. injection Hto as <-.
    right. right. right. repeat split. by intros ->.
Qed.

Lemma keyCount_snoc (key : string) (stack : list string) (object : string) :
  keyCount key (stack ++ [object])
  = (keyCount key stack + if bool_decide (object = key) then 1 else 0)%nat.
Proof.
  unfold keyCount. rewrite filter_app, length_app. f_equal.
  rewrite filter_cons, filter_nil. case_bool_decide; by case_decide.
Qed.

(** [pop] takes from the stack the one occurrence that [topOf] returns. *)
Lemma keyCount_pop (key : string) (stack : list string) :
  stack ≠ [] →
  ((if js_eq (topOf stack) key then 1 else 0) + keyCount key (removelast stack))%nat
  = keyCount key stack.
Proof.
  destruct stack as [|object stack _] using rev_ind; [done|]. intros _.
  unfold topOf. rewrite last_snoc, removelast_last, keyCount_snoc, js_eq_Str.
  lia.
Qed.

(** Changing one stack changes the total by what it changes in that stack. *)
Lemma sum_alter {A : Type} (f : A → nat) (g : A → A) (l : list A) i x :
  l !! i = Some x →
  (sum_list (map f (alter g i l)) + f x = sum_list (map f l) + f (g x))%nat.
Proof.
  revert i. induction l as [|y l IH]; intros [|i] Hi; simplify_eq/=.
  - lia.
  - specialize (IH i Hi). lia.
Qed.

(** One transition moves no key other than the empty string to a second
    place and loses none. *)
Lemma successor_occurrences (key : string) (s s' : WorldState) :
  key ≠ "" → successor s s' → occurrences key s' = occurrences key s.
Proof.
  intros Hkey (column & Hcolumn & Hcases)%successor_cases.
  destruct Hcases as [->|[->|[(held & Hholding & _ & ->)|(Hfalsy & Hne & ->)]]];
    try done.
  - unfold occurrences. simpl. rewrite Hholding.
    pose proof (sum_alter (keyCount key) (λ stack, stack ++ [held]) _ _ _
                  Hcolumn) as Hsum.
    cbv beta in Hsum. rewrite keyCount_snoc in Hsum. rewrite js_eq_Str. lia.
  - unfold occurrences. simpl. rewrite (falsy_not_key _ _ Hfalsy Hkey).
    pose proof (sum_alter (keyCount key) (λ stack, removelast stack) _ _ _
                  Hcolumn) as Hsum.
    apply (keyCount_pop key) in Hne. cbv beta in Hsum. lia.
Qed.

(** For keys other than the empty string the invariant holds: if every key
    of a set of non-empty keys is in exactly one place in the start state
    (held, or once in one stack), it is so in every state that the
    transitions of [outgoingEdges] reach, in one step or in many. *)
Theorem placedOnce_preserved (keys : list string) (s s' : WorldState) :
  "" ∉ keys → placedOnce keys s → rtc successor s s' → placedOnce keys s'.
Proof.
  intros Hkeys Hplaced Hreach. induction Hreach as [s|s s1 s' Hstep _ IH];
    [done|].
  apply IH. intros key Hkey.
  rewrite (successor_occurrences key s s1); [by apply Hplaced| |done].
  intros ->. done.
Qed.

(** [placedOnce_preserved] on the pick of [b] in [small_world]. *)
Lemma placedOnce_preserved_witness :
  placedOnce ["a"; "b"; "c"] (mkWorldState [["a"]; ["c"]] "b" 0 example_objects []).
Proof.
  apply (placedOnce_preserved ["a"; "b"; "c"] small_world).
  - apply (bool_decide_unpack _). vm_compute. exact I.
  - intros key
      [->|[->|[->|[]%elem_of_nil]%elem_of_cons]%elem_of_cons]%elem_of_cons;
      reflexivity.
  - apply rtc_once. eexists _, _. split; [reflexivity|].
    split; [right; left|reflexivity].
Defined.

(** C4.  The invariant "every key in exactly one place" is lost on a held
    object whose key is the empty string: the pick guard [!holding] takes
    it for an empty gripper, so a pick is generated over it.  [""] is held
    in [emptykey_held_world], and in no place after the pick. *)
Lemma placedOnce_lost_empty_key :
  placedOnce [""; "e"] emptykey_held_world
  ∧ ∃ s', successor emptykey_held_world s' ∧ ¬ placedOnce [""; "e"] s'.
Proof.
  split.
  - intros key [->|[->|[]%elem_of_nil]%elem_of_cons]%elem_of_cons; reflexivity.
  - exists (mkWorldState [[]] "e" 0 emptykey_objects []). split.
    + eexists _, _. split; [reflexivity|]. split; [left|reflexivity].
    + intros Hplaced. specialize (Hplaced "" ltac:(left)). discriminate Hplaced.
Qed.

(** A transition keeps the number of columns and the number of objects,
    and brings in no empty key. *)
Lemma successor_shape (s s' : WorldState) :
  keysNonEmpty s → successor s s' →
  keysNonEmpty s' ∧ length (stacks s') = length (stacks s) ∧ load s' = load s.
Proof.
  intros [Hheld Hkeys] (column & Hcolumn & Hcases)%successor_cases.
  assert (Hin : "" ∉ column) by (eapply Hkeys, list_elem_of_lookup_2, Hcolumn).
  assert (Hall : Forall (λ stack : list string, "" ∉ stack) (stacks s))
    by (by apply Forall_forall).
  destruct Hcases as [->|[->|[(held & Hholding & Hne & ->)|(Hfalsy & Hne & ->)]]];
    try done.
  - split; [|split]; simpl.
    + split; [done|]. apply Forall_forall, Forall_alter; [done|].
      intros stack _ Hstack [?|[?|[]%elem_of_nil]%elem_of_cons]%elem_of_app;
        done.
    + apply length_alter.
    + unfold load. simpl. rewrite Hholding. simpl.
      rewrite (bool_decide_eq_false_2 _ Hne). simpl.
      pose proof (sum_alter length (λ stack, stack ++ [held]) _ _ _ Hcolumn)
        as Hsum.
      cbv beta in Hsum. rewrite length_app in Hsum. simpl in Hsum. lia.
  - destruct column as [|top column _] using rev_ind; [done|].
    assert (Htop : top ≠ "")
      by (intros ->; apply Hin, elem_of_app; right; left).
    split; [|split]; simpl.
    + split.
      * unfold topOf. rewrite last_snoc. by intros [= ?].
      * apply Forall_forall, Forall_alter; [done|].
        intros stack Hstack' _ Hempty.
        rewrite Hcolumn in Hstack'. injection Hstack' as <-.
        rewrite removelast_last in Hempty.
        apply Hin, elem_of_app. by left.
    + apply length_alter.
    + unfold load. simpl. unfold topOf at 1. rewrite last_snoc, Hfalsy. simpl.
      rewrite (bool_decide_eq_false_2 _ Htop). simpl.
      pose proof (sum_alter length (λ stack, removelast stack) _ _ _ Hcolumn)
        as Hsum.
      cbv beta in Hsum. rewrite removelast_last, length_app in Hsum.
      simpl in Hsum. lia.
Qed.

Lemma reachable_shape (s s' : WorldState) :
  keysNonEmpty s → rtc successor s s' →
  keysNonEmpty s' ∧ length (stacks s') = length (stacks s) ∧ load s' = load s.
Proof.
  intros Hkeys Hreach. induction Hreach as [s|s s1 s' Hstep _ IH]; [done|].
  destruct (successor_shape s s1 Hkeys Hstep) as (Hkeys1 & Hcolumns & Hload).
  destruct (IH Hkeys1) as (? & ? & ?). split; [done|]. split; congruence.
Qed.

(** ** The drop transition *)

Lemma alter_insert {A : Type} (f : A → A) (l : list A) (i : nat) (x : A) :
  l !! i = Some x → alter f i l = <[i := f x]> l.
Proof.
  intros Hi. rewrite list_insert_alter. apply list_alter_ext; [|done].
  intros y Hy. congruence.
Qed.

Lemma topOf_Nil (stack : list string) : topOf stack = Nil ↔ stack = [].
Proof.
  unfold topOf. destruct stack as [|object stack _] using rev_ind; [done|].
  rewrite last_snoc. split; [done|]. by intros ?%app_nil_r_inv.
Qed.

Lemma topOf_elem (stack : list string) (object : string) :
  topOf stack = Str object → object ∈ stack.
Proof.
  unfold topOf. destruct (last stack) as [top|] eqn:Htop; [|done].
  intros [= ->]. apply last_Some in Htop as [stack' ->].
  apply elem_of_app. right. left.
Qed.

(** In a state whose arm is over a column and in which no key is the empty
    string, the drop is as expected: [outgoingEdges] returns, and it has a
    drop edge exactly when something is held and the column is empty or
    [isMoveValid] accepts the held object ["ontop"] or ["inside"] the top of
    the column; the edge leads to the state with the held object pushed on
    that column, nothing held, and the arm and the other columns as they
    were. *)
Theorem drop_edge_spec (st : WorldState) :
  (0 ≤ arm st < Z.of_nat (length (stacks st)))%Z →
  keysNonEmpty st →
  ∃ column edges,
    js_index (stacks st) (arm st) = Some column
    ∧ outgoingEdges (mkSNode st) = Return edges
    ∧ (generatesDrop (mkSNode st) ↔ dropEnabled st column)
    ∧ ∀ edge, edge ∈ edges → command edge = "d" →
        ∃ held : string,
          holding st = Str held
          ∧ to edge
            = mkSNode (mkWorldState
                         (<[Z.to_nat (arm st) := column ++ [held]]> (stacks st))
                         Nil (arm st) (objects st) (examples st)).
Proof.
  intros Harm [Hheld Hstacks]. set (node := mkSNode st).
  destruct (lookup_lt_is_Some_2 (stacks st) (Z.to_nat (arm st))) as [column Hcolumn];
    [lia|].
  assert (Hindex : js_index (stacks st) (arm st) = Some column)
    by (apply js_index_Some; split; [lia|done]).
  assert (Htop : truthy (topOf column) = negb (bool_decide (column = []))).
  { destruct (topOf column) as [|top] eqn:Etop.
    - apply topOf_Nil in Etop as ->. done.
    - rewrite (bool_decide_eq_false_2 (column = [])).
      + simpl. rewrite bool_decide_eq_false_2; [done|]. intros ->.
        apply topOf_elem in Etop. apply (Hstacks column); [|done].
        by eapply list_elem_of_lookup_2.
      + intros ->. done. }
  assert (Hholding : truthy (holding st) = negb (bool_decide (holding st = Nil))).
  { destruct (holding st) as [|held]; [done|]. simpl.
    rewrite (bool_decide_eq_false_2 (held = "")) by congruence. done. }
  exists column. eexists. split; [done|]. split.
  { unfold outgoingEdges. simpl. rewrite Hindex. simpl. reflexivity. }
  set (left := if (0 <? arm st)%Z then _ else _).
  set (right := if (arm st <? _)%Z then _ else _).
  set (pick := if negb (truthy _) && _ then _ else _).
  set (drop := if truthy (holding st) && _ then _ else _).
  assert (Hleft : ∀ edge, edge ∈ left → command edge = "l").
  { intros edge. unfold left. destruct (0 <? arm st)%Z;
      [by intros ->%list_elem_of_singleton|by intros ?%elem_of_nil]. }
  assert (Hright : ∀ edge, edge ∈ right → command edge = "r").
  { intros edge. unfold right. destruct (arm st <? _)%Z;
      [by intros ->%list_elem_of_singleton|by intros ?%elem_of_nil]. }
  assert (Hpick : ∀ edge, edge ∈ pick → command edge = "p").
  { intros edge. unfold pick. destruct (negb _ && _);
      [by intros ->%list_elem_of_singleton|by intros ?%elem_of_nil]. }
  assert (Hdrop : ∀ edge, edge ∈ left ++ right ++ drop ++ pick →
            command edge = "d" → edge ∈ drop).
  { intros edge. rewrite !elem_of_app. intros [H|[H|[H|H]]] Hd; [| |done|].
    - apply Hleft in H. congruence.
    - apply Hright in H. congruence.
    - apply Hpick in H. congruence. }
  split.
  - unfold generatesDrop, dropEnabled. split.
    + intros (edges & edge & Hedges & Hedge & Hd).
      unfold outgoingEdges in Hedges. simpl in Hedges. rewrite Hindex in Hedges.
      simpl in Hedges. injection Hedges as <-.
      apply Hdrop in Hedge; [|done]. unfold drop in Hedge.
      rewrite Hholding, Htop in Hedge.
      destruct (decide (holding st = Nil)) as [Hnil|Hnil];
        [rewrite (bool_decide_eq_true_2 _ Hnil) in Hedge;
         by apply elem_of_nil in Hedge|].
      split; [done|].
      destruct (decide (column = [])) as [Hempty|Hempty]; [by left|].
      rewrite (bool_decide_eq_false_2 _ Hnil),
        (bool_decide_eq_false_2 _ Hempty) in Hedge. simpl in Hedge.
      destruct (isMoveValid (holding st) "ontop" (topOf column) st);
        [right; by left|].
      destruct (isMoveValid (holding st) "inside" (topOf column) st);
        [right; by right|].
      by apply elem_of_nil in Hedge.
    + intros [Hsome Hcond].
      assert (∃ held : string, holding st = Str held) as [held Eheld]
        by (destruct (holding st); [done|eauto]).
      assert (Hd : ∃ edge, drop = [edge] ∧ command edge = "d").
      { unfold drop. rewrite Hholding, Htop.
        rewrite (bool_decide_eq_false_2 (holding st = Nil)) by done. simpl.
        destruct (decide (column = [])) as [Hempty|Hempty].
        - rewrite (bool_decide_eq_true_2 _ Hempty). simpl. rewrite Eheld. eauto.
        - rewrite (bool_decide_eq_false_2 _ Hempty). simpl.
          destruct Hcond as [?|[-> | ->]]; [done| |];
            rewrite ?orb_true_r; simpl; rewrite Eheld; eauto. }
      destruct Hd as (edge & Hd & Hcommand).
      exists (left ++ right ++ drop ++ pick), edge.
      split; [unfold outgoingEdges; simpl; by rewrite Hindex|].
      split; [|done].
      rewrite !elem_of_app, Hd. right. right. left. left.
  - intros edge Hedge Hd. apply Hdrop in Hedge; [|done]. unfold drop in Hedge.
    destruct (truthy (holding st) && _); [|by apply elem_of_nil in Hedge].
    destruct (holding st) as [|held]; [by apply elem_of_nil in Hedge|].
    apply list_elem_of_singleton in Hedge as ->. exists held. split; [done|].
    simpl. by rewrite (alter_insert _ _ _ _ Hcolumn).
Qed.

(** [drop_edge_spec] on [holding_world]. *)
Lemma drop_edge_spec_witness :
  ∃ column edges,
    js_index (stacks holding_world) (arm holding_world) = Some column
    ∧ outgoingEdges (mkSNode holding_world) = Return edges
    ∧ (generatesDrop (mkSNode holding_world) ↔ dropEnabled holding_world column)
    ∧ ∀ edge, edge ∈ edges → command edge = "d" →
        ∃ held : string,
          holding holding_world = Str held
          ∧ to edge
            = mkSNode (mkWorldState
                         (<[Z.to_nat (arm holding_world) := column ++ [held]]>
                            (stacks holding_world))
                         Nil (arm holding_world) (objects holding_world)
                         (examples holding_world)).
Proof.
  apply (drop_edge_spec holding_world).
  - simpl. lia.
  - split; [done|].
    intros stack [->|[->|[]%elem_of_nil]%elem_of_cons]%elem_of_cons
      [?|[]%elem_of_nil]%elem_of_cons; discriminate.
Defined.

(** C5.  The drop guard [targetObject ? ... : true] takes a top object
    whose key is the empty string for an empty column and skips the rule
    table: a drop edge is generated although the column is not empty and
    [isMoveValid] rejects the large ball both on and in the small box. *)
Lemma drop_over_empty_key :
  generatesDrop (mkSNode emptykey_top_world)
  ∧ js_index (stacks emptykey_top_world) (arm emptykey_top_world) = Some [""]
  ∧ ¬ dropEnabled emptykey_top_world [""].
Proof.
  split; [|split].
  - eexists _, _. split; [reflexivity|]. split; [left|reflexivity].
  - reflexivity.
  - intros [_ [H|[H|H]]]; discriminate H.
Qed.

(** ** Comparing nodes *)

(** C2.  [compareNodes] walks the stacks of its second argument only, so
    it returns 0 for two states with the same arm and held object when the
    first one has an object more on a column; with the arguments swapped it
    returns 1. *)
Theorem compareNodes_misses_longer_stack :
  compareNodes (mkSNode tall_world) (mkSNode short_world) = Return 0%Z
  ∧ compareNodes (mkSNode short_world) (mkSNode tall_world) = Return 1%Z
  ∧ holding tall_world = holding short_world
  ∧ arm tall_world = arm short_world
  ∧ stacks tall_world ≠ stacks short_world.
Proof. repeat split; done. Qed.

(** Where [compareNodes] is right: the inner loop tests that the stack of
    [theOther] is an initial part of the stack of [one]. *)
Lemma compareNodes_inner_prefix (stack otherStack : list string) (j : nat) :
  "" ∉ stack →
  compareNodes_inner (Some stack) otherStack j
  = Return (negb (bool_decide (otherStack `prefix_of` drop j stack))).
Proof.
  intros Hstack. revert j.
  induction otherStack as [|otherObject rest IH]; intros j; simpl.
  - done.
  - destruct (stack !! j) as [object|] eqn:Hj; simpl.
    + assert (object ≠ "") as Hobject
        by (intros ->; by apply list_elem_of_lookup_2 in Hj).
      rewrite (bool_decide_eq_false_2 _ Hobject), js_eq_Str. simpl.
      rewrite (drop_S _ _ _ Hj).
      destruct (decide (object = otherObject)) as [->|Hne].
      * rewrite bool_decide_eq_true_2 by done. simpl. rewrite IH.
        do 2 f_equal. apply bool_decide_ext. split.
        -- apply prefix_cons.
        -- apply prefix_cons_inv_2.
      * rewrite (bool_decide_eq_false_2 _ Hne). simpl.
        rewrite bool_decide_eq_false_2; [done|].
        intros ?%prefix_cons_inv_1. done.
    + rewrite drop_ge by (by apply lookup_ge_None).
      rewrite bool_decide_eq_false_2; [done|]. apply prefix_nil_not.
Qed.

Lemma compareNodes_outer_prefix (before oneStacks otherStacks : list (list string)) :
  Forall (λ stack, "" ∉ stack) oneStacks →
  length otherStacks = length oneStacks →
  compareNodes_outer (before ++ oneStacks) otherStacks (length before)
  = Return (if bool_decide (Forall2 prefix otherStacks oneStacks)
            then 0 else 1)%Z.
Proof.
  intros Hkeys. revert before otherStacks.
  induction Hkeys as [|stack oneStacks Hstack _ IH];
    intros before [|otherStack otherStacks] Hlength; simplify_eq/=.
  - done.
  - rewrite list_lookup_middle by done.
    rewrite compareNodes_inner_prefix by done. simpl.
    destruct (decide (otherStack `prefix_of` stack)) as [Hprefix|Hprefix].
    + rewrite (bool_decide_eq_true_2 _ Hprefix). simpl.
      specialize (IH (before ++ [stack]) otherStacks Hlength).
      rewrite length_app, Nat.add_1_r, <- app_assoc in IH. simpl in IH.
      rewrite IH. f_equal.
      rewrite (bool_decide_ext (Forall2 prefix otherStacks oneStacks)
                 (Forall2 prefix (otherStack :: otherStacks) (stack :: oneStacks)));
        [done|].
      split; [by constructor|by intros [_ ?]%Forall2_cons].
    + rewrite (bool_decide_eq_false_2 _ Hprefix). simpl.
      rewrite bool_decide_eq_false_2; [done|]. by intros [? _]%Forall2_cons.
Qed.

(** Initial parts of the same total length are the stacks themselves. *)
Lemma Forall2_prefix_eq (otherStacks oneStacks : list (list string)) :
  Forall2 prefix otherStacks oneStacks →
  (sum_list (map length otherStacks) ≤ sum_list (map length oneStacks))%nat
  ∧ ((sum_list (map length oneStacks) ≤ sum_list (map length otherStacks))%nat →
     otherStacks = oneStacks).
Proof.
  induction 1 as [|otherStack stack otherStacks oneStacks Hprefix _ [IHle IHeq]];
    simpl; [done|].
  pose proof (prefix_length _ _ Hprefix). split; [lia|].
  intros Hle. f_equal.
  - apply prefix_length_eq; [done|lia].
  - apply IHeq. lia.
Qed.

(** Between two states with as many columns and as many stacked objects,
    and no empty key, [compareNodes] is the equality test. *)
Lemma compareNodes_same_shape (one theOther : SNode) :
  (∀ stack, stack ∈ stacks (state one) → "" ∉ stack) →
  length (stacks (state one)) = length (stacks (state theOther)) →
  sum_list (map length (stacks (state one)))
  = sum_list (map length (stacks (state theOther))) →
  compareNodes one theOther
  = Return (if bool_decide (holding (state one) = holding (state theOther)
                            ∧ arm (state one) = arm (state theOther)
                            ∧ stacks (state one) = stacks (state theOther))
            then 0 else 1)%Z.
Proof.
  intros Hkeys Hcolumns Hobjects. unfold compareNodes, js_eq.
  case_bool_decide as Hholding; simpl;
    [|rewrite bool_decide_eq_false_2; [done|by intros [? _]]].
  destruct (Z.eqb_spec (arm (state one)) (arm (state theOther))) as [Harm|Harm];
    simpl; [|rewrite bool_decide_eq_false_2; [done|by intros (_ & ? & _)]].
  pose proof (compareNodes_outer_prefix [] (stacks (state one))
                (stacks (state theOther))) as Houter.
  simpl in Houter. rewrite Houter by (by rewrite ?Forall_forall).
  f_equal.
  rewrite (bool_decide_ext
             (Forall2 prefix (stacks (state theOther)) (stacks (state one)))
             (holding (state one) = holding (state theOther)
              ∧ arm (state one) = arm (state theOther)
              ∧ stacks (state one) = stacks (state theOther))); [done|].
  split.
  - intros Hprefix. repeat split; try done. symmetry.
    apply Forall2_prefix_eq; [done|lia].
  - intros (_ & _ & ->). apply Forall_Forall2_diag, Forall_forall.
    by intros.
Qed.

(** The comparison is exact between two states reached from one state
    without empty keys. *)
Lemma compareNodes_reachable (s0 s1 s2 : WorldState) :
  keysNonEmpty s0 → rtc successor s0 s1 → rtc successor s0 s2 →
  compareNodes (mkSNode s1) (mkSNode s2)
  = Return (if bool_decide (holding s1 = holding s2 ∧ arm s1 = arm s2
                            ∧ stacks s1 = stacks s2)
            then 0 else 1)%Z.
Proof.
  intros Hkeys (Hkeys1 & Hcolumns1 & Hload1)%reachable_shape
    (Hkeys2 & Hcolumns2 & Hload2)%reachable_shape; try done.
  destruct (decide (holding s1 = holding s2)) as [Hholding|Hholding].
  - apply (compareNodes_same_shape (mkSNode s1) (mkSNode s2)); simpl.
    + apply Hkeys1.
    + congruence.
    + unfold load in *. rewrite Hholding in Hload1. lia.
  - unfold compareNodes, js_eq. simpl.
    rewrite (bool_decide_eq_false_2 _ Hholding). simpl.
    rewrite bool_decide_eq_false_2; [done|]. by intros [? _].
Qed.

(** X29.  Between two states of one search, from a start state without
    empty keys, [compareNodes] is the equality test on gripper, arm and
    stacks: both states have the shape of the start state. *)
Theorem compareNodes_same_search (s0 s1 s2 : WorldState) :
  keysNonEmpty s0 → rtc successor s0 s1 → rtc successor s0 s2 →
  compareNodes (mkSNode s1) (mkSNode s2)
  = Return (if bool_decide (holding s1 = holding s2 ∧ arm s1 = arm s2
                            ∧ stacks s1 = stacks s2)
            then 0 else 1)%Z.
Proof. apply compareNodes_reachable. Qed.

(** ** The formulas of the goal resolver *)

Lemma placementLiterals_positive objectToMove relation locationKey st :
  Forall (λ lit, polarity lit = true)
    (placementLiterals objectToMove relation locationKey st).
Proof.
  unfold placementLiterals.
  destruct (isMoveValid _ _ _ _); [|done].
  case_bool_decide; [destruct (holding st)|]; by repeat constructor.
Qed.

Lemma flat_map_positive {A : Type} (f : A → list Literal) (l : list A) :
  (∀ x, Forall (λ lit, polarity lit = true) (f x)) →
  Forall (λ lit, polarity lit = true) (flat_map f l).
Proof.
  intros Hf. induction l as [|x l IH]; simpl; [done|].
  apply Forall_app. by split.
Qed.

Lemma getPossibleMoves_positive command objectToMove location st literals :
  getPossibleMoves command objectToMove location st = Return literals →
  Forall (λ lit, polarity lit = true) literals.
Proof.
  unfold getPossibleMoves.
  destruct (negb _); [|by intros [= <-]].
  destruct (_ || _); [intros [= <-]; by repeat constructor|].
  destruct (_ || _); [|by intros [= <-]].
  destruct location as [location|]; simpl; [|done].
  destruct (obj_location _) as [nested|].
  - destruct (obj_object _) as [inner|]; simpl; [|done].
    intros [= <-]. apply flat_map_positive. intros ?.
    apply placementLiterals_positive.
  - intros [= <-]. apply flat_map_positive. intros ?.
    apply placementLiterals_positive.
Qed.

Lemma interpretCommand_loop_single cmd objectRelations st acc formula :
  Forall singlePositive acc →
  interpretCommand_loop cmd objectRelations st acc = Return formula →
  Forall singlePositive formula.
Proof.
  revert acc. induction objectRelations as [|objectRelation rest IH];
    intros acc Hacc; simpl.
  - by intros [= <-].
  - destruct (getPossibleMoves _ _ _ _) as [results|] eqn:Hresults; simpl;
      [|done].
    apply IH. apply Forall_app. split; [done|].
    apply getPossibleMoves_positive in Hresults.
    induction Hresults as [|lit results Hlit _ IHresults]; simpl; [done|].
    constructor; [by exists lit|done].
Qed.

(** C8.  A formula that [interpretCommand] returns is a list of conjunctions
    of one literal each, and every literal has polarity [true]: the resolver
    emits no negated literal and no longer conjunction. *)
Theorem interpretCommand_single_positive (cmd : Parser_Command)
    (st : WorldState) (formula : DNFFormula) :
  interpretCommand cmd st = Return formula → Forall singlePositive formula.
Proof.
  unfold interpretCommand.
  destruct (match cmd_entity cmd with Some _ => _ | None => _ end)
    as [existing|]; simpl; [|done].
  destruct (interpretCommand_loop cmd existing st []) as [my|] eqn:Hloop;
    simpl; [|done].
  case_bool_decide; [done|]. intros [= <-].
  by eapply interpretCommand_loop_single.
Qed.

(** [interpretCommand_single_positive] on "put it on the floor" while [b] is held. *)
Lemma interpretCommand_single_positive_witness :
  Forall singlePositive [[mkLiteral true "ontop" ["b"; "floor"]]].
Proof.
  apply (interpretCommand_single_positive put_it_on_the_floor holding_world).
  reflexivity.
Defined.

(** ** The drivers *)

Lemma foldl_attempts {A B : Type} (attempt : A → outcome B)
    (step : list exn * list B → A → list exn * list B) :
  (∀ errors results x,
     step (errors, results) x
     = match attempt x with
       | Return result => (errors, results ++ [result])
       | Throw err => (errors ++ [err], results)
       end) →
  ∀ l errors results,
    foldl step (errors, results) l
    = (errors ++ failures (map attempt l), results ++ successes (map attempt l)).
Proof.
  intros Hstep l. induction l as [|x l IH]; intros errors results; simpl.
  - by rewrite !app_nil_r.
  - rewrite Hstep. unfold successes, failures. simpl.
    destruct (attempt x); rewrite IH; unfold successes, failures;
      by rewrite <- app_assoc.
Qed.

(** [plan] in terms of the list of its attempts. *)
Lemma plan_collect planInterpretation interpretations currentState :
  plan planInterpretation interpretations currentState
  = let attempts :=
      map (plan_attempt planInterpretation currentState) interpretations in
    match successes attempts with
    | _ :: _ => Return (successes attempts)
    | [] => Throw (firstError (failures attempts))
    end.
Proof.
  unfold plan.
  rewrite (foldl_attempts (plan_attempt planInterpretation currentState));
    [done|].
  intros errors results x. done.
Qed.

(** [interpret] likewise. *)
Lemma interpret_collect parses currentState :
  interpret parses currentState
  = let attempts := map (interpret_attempt currentState) parses in
    match successes attempts with
    | _ :: _ => Return (successes attempts)
    | [] => Throw (firstError (failures attempts))
    end.
Proof.
  unfold interpret.
  rewrite (foldl_attempts (interpret_attempt currentState)); [done|].
  intros errors results x. done.
Qed.

(** When every attempt fails, the error that comes out is that of the first
    item. *)
Corollary plan_all_fail planInterpretation interpretation rest currentState err :
  plan_attempt planInterpretation currentState interpretation = Throw err →
  successes (map (plan_attempt planInterpretation currentState) rest) = [] →
  plan planInterpretation (interpretation :: rest) currentState = Throw err.
Proof.
  intros Hfirst Hrest. rewrite plan_collect. simpl.
  unfold successes, failures in *. simpl. rewrite Hfirst. simpl.
  by rewrite Hrest.
Qed.

(** The successes and failures of the attempts, item by item. *)
Lemma attempts_split {A B : Type} (attempt : A → outcome B)
    (good : A → option B) (bad : A → option exn) (l : list A) :
  (∀ x, match attempt x with
        | Return result => good x = Some result ∧ bad x = None
        | Throw err => good x = None ∧ bad x = Some err
        end) →
  successes (map attempt l) = omap good l
  ∧ failures (map attempt l) = omap bad l
  ∧ length (omap good l) + length (omap bad l) = length l.
Proof.
  intros Hattempt. unfold successes, failures.
  induction l as [|x l (IHgood & IHbad & IHlength)]; [done|].
  specialize (Hattempt x). cbn [map omap list_omap].
  destruct (attempt x) as [result|err]; destruct Hattempt as [-> ->];
    rewrite IHgood, IHbad; cbn [length]; repeat split; lia.
Qed.

(** What comes out of the two accumulators. *)
Lemma collect_cases {A B : Type} (items : list A) (results : list B)
    (errors : list exn) (out : outcome (list B)) :
  length results + length errors = length items →
  out = match results with
        | _ :: _ => Return results
        | [] => Throw (firstError errors)
        end →
  (∀ returned, out = Return returned ↔ results ≠ [] ∧ returned = results)
  ∧ (∀ err, out = Throw err
            ↔ results = []
              ∧ (head errors = Some err
                 ∨ (items = [] ∧ err = ThrownUndefined))).
Proof.
  intros Hlength ->. destruct results as [|result results].
  - split; [intros returned; split; [done|by intros [? _]]|].
    intros err. destruct errors as [|first errors]; simpl.
    + destruct items; [|done]. split.
      * intros [= <-]. split; [done|by right].
      * by intros [_ [?|[_ ->]]].
    + split.
      * intros [= <-]. split; [done|by left].
      * intros [_ [[= ->]|[-> _]]]; done.
  - split.
    + intros returned. split; [by intros [= <-]|by intros [_ ->]].
    + intros err. split; [done|by intros [? _]].
Qed.

(** C7, as the code has it.  [plan] and [interpret] try every item on its
    own: each item gives a result or a recorded error.  They return exactly
    when some item succeeds, and then the results of all the successful
    items, in order.  They throw exactly when none succeeds: the first
    recorded error when there is one, and [undefined] on the empty list,
    where nothing was recorded. *)
Theorem drivers_attempt_all :
  (∀ planInterpretation interpretations currentState,
     let plans :=
       omap (planned planInterpretation currentState) interpretations in
     let errors :=
       omap (planError planInterpretation currentState) interpretations in
     length plans + length errors = length interpretations
     ∧ (∀ returned,
          plan planInterpretation interpretations currentState = Return returned
          ↔ plans ≠ [] ∧ returned = plans)
     ∧ (∀ err,
          plan planInterpretation interpretations currentState = Throw err
          ↔ plans = []
            ∧ (head errors = Some err
               ∨ (interpretations = [] ∧ err = ThrownUndefined))))
  ∧ (∀ parses currentState,
       let results := omap (resolved currentState) parses in
       let errors := omap (resolveError currentState) parses in
       length results + length errors = length parses
       ∧ (∀ returned,
            interpret parses currentState = Return returned
            ↔ results ≠ [] ∧ returned = results)
       ∧ (∀ err,
            interpret parses currentState = Throw err
            ↔ results = []
              ∧ (head errors = Some err
                 ∨ (parses = [] ∧ err = ThrownUndefined)))).
Proof.
  split.
  - intros planInterpretation interpretations currentState plans errors.
    destruct (attempts_split (plan_attempt planInterpretation currentState)
                (planned planInterpretation currentState)
                (planError planInterpretation currentState) interpretations)
      as (Hgood & Hbad & Hlength).
    { intros result. unfold plan_attempt, planned, planError.
      destruct (planInterpretation (interpretation result) currentState)
        as [[[|step steps]|]|err]; by simpl. }
    split; [exact Hlength|].
    apply (collect_cases interpretations plans errors); [exact Hlength|].
    rewrite plan_collect. cbv zeta. by rewrite Hgood, Hbad.
  - intros parses currentState results errors.
    destruct (attempts_split (interpret_attempt currentState)
                (resolved currentState) (resolveError currentState) parses)
      as (Hgood & Hbad & Hlength).
    { intros parseresult. unfold interpret_attempt, resolved, resolveError.
      destruct (interpretCommand (parse parseresult) currentState); by simpl. }
    split; [exact Hlength|].
    apply (collect_cases parses results errors); [exact Hlength|].
    rewrite interpret_collect. cbv zeta. by rewrite Hgood, Hbad.
Qed.

(** On the empty list both drivers throw, and what they throw is not a
    recorded error: nothing was attempted. *)
Lemma drivers_empty_input :
  (∃ err, interpret [] small_world = Throw err
          ∧ err ∉ omap (resolveError small_world) [])
  ∧ (∃ err, plan (λ _ _, Return None) [] small_world = Throw err
            ∧ err ∉ omap (planError (λ _ _, Return None) small_world) []).
Proof.
  split; exists ThrownUndefined; (split; [reflexivity|apply not_elem_of_nil]).
Qed.

(** ** The goal test *)

(** X30.  On the formulas that the resolver emits (every conjunction one
    positive literal), the goal test returns the meaning of the formula as
    a disjunction of conjunctions. *)
Lemma isGoal_single (formula : DNFFormula) (node : SNode) :
  Forall singlePositive formula →
  isGoal formula node = Return (formulaTrue formula (state node)).
Proof.
  induction 1 as [|conjunction formula (lit & -> & Hpos) _ IH]; simpl; [done|].
  unfold conjunctionTrue, literalTrue. simpl. rewrite Hpos, andb_true_r.
  destruct (isInterpretationInCurrentWorldstate lit (state node)); [done|].
  exact IH.
Qed.

(** C1.  The goal test does not require all the literals of a conjunction:
    it reads the first one only.  For the goal "hold [b], with [a] on the
    floor", in the state where [b] is held and [a] lies on [c], [isGoal]
    returns [true] although no conjunction of the formula has all its
    literals true. *)
Theorem isGoal_reads_first_literal :
  isGoal hold_b_with_a_down (mkSNode a_on_c_world) = Return true
  ∧ formulaTrue hold_b_with_a_down a_on_c_world = false.
Proof. split; reflexivity. Qed.

(** ** The column of an object *)

Lemma existsb_key (key : string) (stack : list string) :
  existsb (λ object : string, js_eq object key) stack = true ↔ key ∈ stack.
Proof.
  rewrite existsb_exists. split.
  - intros (object & Hin & Heq). apply list_elem_of_In in Hin.
    rewrite js_eq_Str, bool_decide_eq_true in Heq. by subst.
  - intros Hin. exists key. split; [by apply list_elem_of_In|].
    by rewrite js_eq_Str, bool_decide_eq_true.
Qed.

Lemma existsb_key_false (key : string) (stack : list string) :
  existsb (λ object : string, js_eq object key) stack = false ↔ key ∉ stack.
Proof. rewrite <- existsb_key. by destruct (existsb _ stack). Qed.

Lemma getStackNumber_loop_None (stacks : list (list string)) (n : nat)
    (key : string) :
  getStackNumber_loop stacks n key = None
  ↔ ∀ stack, stack ∈ stacks → key ∉ stack.
Proof.
  revert n. induction stacks as [|stack stacks IH]; intros n; simpl.
  - split; [|done]. by intros _ ? ?%elem_of_nil.
  - destruct (existsb _ stack) eqn:Hstack.
    + apply existsb_key in Hstack. split; [done|].
      intros Hnone. exfalso. apply (Hnone stack); [left|done].
    + apply existsb_key_false in Hstack. rewrite IH. split.
      * intros Hrest other [->|?]%elem_of_cons; auto.
      * intros Hall other ?. apply Hall. by right.
Qed.

Lemma getStackNumber_loop_Some (stacks : list (list string)) (n : nat)
    (key : string) (z : Z) :
  getStackNumber_loop stacks n key = Some z
  ↔ ∃ i stack,
      z = Z.of_nat (n + i) ∧ stacks !! i = Some stack ∧ key ∈ stack
      ∧ ∀ j other, (j < i)%nat → stacks !! j = Some other → key ∉ other.
Proof.
  revert n. induction stacks as [|stack stacks IH]; intros n; simpl.
  - split; [done|]. by intros (i & ? & _ & ? & _).
  - destruct (existsb _ stack) eqn:Hstack.
    + apply existsb_key in Hstack. split.
      * intros [= <-]. exists 0%nat, stack. rewrite Nat.add_0_r.
        repeat split; [done|]. intros j other ?. lia.
      * intros ([|i] & other & -> & Hi & Hin & Hfirst).
        -- by rewrite Nat.add_0_r.
        -- exfalso. apply (Hfirst 0%nat stack); [lia|done|done].
    + apply existsb_key_false in Hstack. rewrite IH. split.
      * intros (i & other & -> & Hi & Hin & Hfirst).
        exists (S i), other. repeat split; [f_equal; lia|done|done|].
        intros [|j] other' Hj Hother'; simplify_eq/=; [done|].
        apply (Hfirst j); [lia|done].
      * intros ([|i] & other & -> & Hi & Hin & Hfirst); simpl in Hi;
          [by injection Hi as <-|].
        exists i, other. repeat split; [f_equal; lia|done|done|].
        intros j other' Hj Hother'. apply (Hfirst (S j)); [lia|done].
Qed.

(** X1.  [getStackNumber] returns [null] exactly when no stack has the key,
    and otherwise the number of the first stack that has it. *)
Theorem getStackNumber_spec (stacks : list (list string)) (key : string) :
  (getStackNumber stacks key = None ↔ ∀ stack, stack ∈ stacks → key ∉ stack)
  ∧ ∀ z, getStackNumber stacks key = Some z
         ↔ ∃ i stack,
             z = Z.of_nat i ∧ stacks !! i = Some stack ∧ key ∈ stack
             ∧ ∀ j other, (j < i)%nat → stacks !! j = Some other → key ∉ other.
Proof.
  split; [apply getStackNumber_loop_None|].
  intros z. apply getStackNumber_loop_Some.
Qed.

(** In stacks that hold every key at most once, a key of one stack is in
    no other. *)
Lemma NoDup_concat_cons (stack : list string) (stacks : list (list string))
    (key : string) :
  NoDup (concat (stack :: stacks)) → key ∈ stack →
  ∀ other, other ∈ stacks → key ∉ other.
Proof.
  simpl. intros (_ & Hdisjoint & _)%NoDup_app Hkey other Hother Hin.
  apply (Hdisjoint key Hkey), list_elem_of_In, in_concat.
  exists other. by rewrite <- !list_elem_of_In.
Qed.

Lemma NoDup_concat_tail (stack : list string) (stacks : list (list string)) :
  NoDup (concat (stack :: stacks)) → NoDup (concat stacks).
Proof. simpl. by intros (_ & _ & ?)%NoDup_app. Qed.

Lemma NoDup_concat_index (stacks : list (list string)) (i k : nat)
    (stack other : list string) (key : string) :
  NoDup (concat stacks) →
  stacks !! i = Some stack → stacks !! k = Some other →
  key ∈ stack → key ∈ other → i = k.
Proof.
  revert i k. induction stacks as [|first stacks IH]; intros i k Hnodup Hi Hk;
    [done|].
  intros Hstack Hother. destruct i as [|i], k as [|k]; simpl in Hi, Hk.
  - done.
  - injection Hi as ->. exfalso.
    apply (NoDup_concat_cons stack stacks key Hnodup Hstack other); [|done].
    by eapply list_elem_of_lookup_2.
  - injection Hk as ->. exfalso.
    apply (NoDup_concat_cons other stacks key Hnodup Hother stack); [|done].
    by eapply list_elem_of_lookup_2.
  - f_equal. eapply IH; [|done..]. by eapply NoDup_concat_tail.
Qed.

Section StackColumns.

Variables a b : string.

Lemma stackNr_scan_first stack n nrs :
  a ∈ stack → b ∉ stack → stackNr_scan stack n a b nrs = (n, nrs.2).
Proof.
  induction stack as [|object stack IH]; simpl.
  - by intros ?%elem_of_nil.
  - rewrite elem_of_cons, not_elem_of_cons, !js_eq_Str. intros Ha [Hb ?].
    case_bool_decide; [done|]. case_bool_decide; [congruence|].
    apply IH; [|done]. destruct Ha; [congruence|done].
Qed.

Lemma stackNr_scan_second stack n nrs :
  b ∈ stack → a ∉ stack → stackNr_scan stack n a b nrs = (nrs.1, n).
Proof.
  induction stack as [|object stack IH]; simpl.
  - by intros ?%elem_of_nil.
  - rewrite elem_of_cons, not_elem_of_cons, !js_eq_Str. intros Hb [Ha ?].
    case_bool_decide; [congruence|]. case_bool_decide; [done|].
    apply IH; [|done]. destruct Hb; [congruence|done].
Qed.

(** When the two keys never share a stack, the loops end with the columns
    that [getStackNumber] finds, or with the initial numbers. *)
Lemma stackNr_loop_columns stacks n nrs :
  NoDup (concat stacks) →
  (∀ stack, stack ∈ stacks → a ∈ stack → b ∉ stack) →
  stackNr_loop stacks n a b nrs
  = (default nrs.1 (getStackNumber_loop stacks n a),
     default nrs.2 (getStackNumber_loop stacks n b)).
Proof.
  revert n nrs. induction stacks as [|stack stacks IH]; intros n nrs Hnodup Hapart;
    simpl; [by destruct nrs|].
  assert (Hrest : ∀ other, other ∈ stacks → a ∈ other → b ∉ other)
    by (intros other ?; apply Hapart; by right).
  pose proof (NoDup_concat_tail _ _ Hnodup) as Hnodup'.
  rewrite (IH _ _ Hnodup' Hrest).
  destruct (decide (a ∈ stack)) as [Ha|Ha].
  - assert (Hb : b ∉ stack) by (apply Hapart; [left|done]).
    rewrite (stackNr_scan_first _ _ _ Ha Hb). simpl.
    rewrite (proj2 (existsb_key a stack) Ha).
    rewrite (proj2 (existsb_key_false b stack) Hb).
    rewrite (proj2 (getStackNumber_loop_None stacks (S n) a)); [done|].
    by apply (NoDup_concat_cons stack).
  - rewrite (proj2 (existsb_key_false a stack) Ha).
    destruct (decide (b ∈ stack)) as [Hb|Hb].
    + rewrite (stackNr_scan_second _ _ _ Hb Ha). simpl.
      rewrite (proj2 (existsb_key b stack) Hb).
      rewrite (proj2 (getStackNumber_loop_None stacks (S n) b)); [done|].
      by apply (NoDup_concat_cons stack).
    + rewrite (stackNr_scan_miss a b _ _ _ Ha Hb).
      by rewrite (proj2 (existsb_key_false b stack) Hb).
Qed.

(** When they share one, the key that comes second in it stays unseen. *)
Lemma stackNr_loop_shared stacks stack :
  NoDup (concat stacks) → stack ∈ stacks → a ∈ stack → b ∈ stack →
  (stackNr_loop stacks 0 a b (-10, -10)%Z).1 = (-10)%Z
  ∨ (stackNr_loop stacks 0 a b (-10, -10)%Z).2 = (-10)%Z.
Proof.
  intros Hnodup Hstack Ha Hb.
  apply list_elem_of_split in Hstack as (before & after & ->).
  rewrite concat_app, concat_cons in Hnodup.
  apply NoDup_app in Hnodup as (_ & Hbefore & Hnodup).
  apply NoDup_app in Hnodup as (_ & Hafter & _).
  assert (Hout : ∀ key other, key ∈ stack →
            other ∈ before ∨ other ∈ after → key ∉ other).
  { intros key other Hkey [Hother|Hother] Hin.
    - apply (Hbefore key); [|apply elem_of_app; by left].
      apply list_elem_of_In, in_concat. exists other.
      by rewrite <- !list_elem_of_In.
    - apply (Hafter key Hkey).
      apply list_elem_of_In, in_concat. exists other.
      by rewrite <- !list_elem_of_In. }
  rewrite stackNr_loop_app. cbn [stackNr_loop].
  rewrite (stackNr_loop_miss a b before) by (intros; apply Hout; auto).
  rewrite (stackNr_loop_miss a b after) by (intros; apply Hout; auto).
  destruct (stackNr_scan_hit a b stack (Z.of_nat (0 + length before))
              (-10, -10)%Z) as [E|E]; [by left| |]; rewrite E; simpl; auto.
Qed.

(** Both numbers are set exactly when the two keys are in two different
    columns, and they are then these columns. *)
Lemma stackNr_loop_both stacks f s :
  NoDup (concat stacks) →
  stackNr_loop stacks 0 a b (-10, -10)%Z = (f, s) →
  (f ≠ (-10)%Z ∧ s ≠ (-10)%Z
   ↔ ∃ i j, getStackNumber stacks a = Some i ∧ getStackNumber stacks b = Some j
            ∧ i ≠ j)
  ∧ (f ≠ (-10)%Z → s ≠ (-10)%Z →
     getStackNumber stacks a = Some f ∧ getStackNumber stacks b = Some s).
Proof.
  intros Hnodup Hloop.
  assert (Hset : f ≠ (-10)%Z → s ≠ (-10)%Z →
            getStackNumber stacks a = Some f ∧ getStackNumber stacks b = Some s
            ∧ f ≠ s).
  { intros Hf Hs.
    assert (Hapart : ∀ stack, stack ∈ stacks → a ∈ stack → b ∉ stack).
    { intros stack Hstack Ha Hb.
      destruct (stackNr_loop_shared stacks stack Hnodup Hstack Ha Hb) as [E|E];
        rewrite Hloop in E; simpl in E; congruence. }
    pose proof (stackNr_loop_columns stacks 0 (-10, -10)%Z Hnodup Hapart) as E.
    rewrite Hloop in E. simpl in E. injection E as Ef Es.
    unfold getStackNumber.
    destruct (getStackNumber_loop stacks 0 a) as [zi|] eqn:Hi; simpl in Ef;
      [|congruence].
    destruct (getStackNumber_loop stacks 0 b) as [zj|] eqn:Hj; simpl in Es;
      [|congruence].
    subst. repeat split. intros ->.
    apply getStackNumber_loop_Some in Hi as (i & stack & Ei & Hstack & Ha & _).
    apply getStackNumber_loop_Some in Hj as (j & other & Ej & Hother & Hb & _).
    assert (i = j) as -> by lia. simplify_eq.
    by apply (Hapart stack); [eapply list_elem_of_lookup_2|..]. }
  split; [split|].
  - intros [Hf Hs]. destruct (Hset Hf Hs) as (? & ? & ?). eauto.
  - intros (zi & zj & Hi & Hj & Hne).
    pose proof Hi as Hi'. pose proof Hj as Hj'.
    apply getStackNumber_loop_Some in Hi' as (i & stack & Ei & Hstack & Ha & _).
    apply getStackNumber_loop_Some in Hj' as (j & other & Ej & Hother & Hb & _).
    assert (Hapart : ∀ stack, stack ∈ stacks → a ∈ stack → b ∉ stack).
    { intros shared Hshared Ha' Hb'.
      apply list_elem_of_lookup in Hshared as [k Hk].
      assert (i = k) by (by eapply (NoDup_concat_index stacks i k _ _ a)).
      assert (j = k) by (by eapply (NoDup_concat_index stacks j k _ _ b)).
      lia. }
    pose proof (stackNr_loop_columns stacks 0 (-10, -10)%Z Hnodup Hapart) as E.
    rewrite Hloop in E. unfold getStackNumber in Hi, Hj.
    rewrite Hi, Hj in E. simpl in E. injection E as -> ->. lia.
  - intros Hf Hs. destruct (Hset Hf Hs) as (? & ? & ?). done.
Qed.

End StackColumns.

(** X2.  In a world whose stacks hold every key at most once, [isBeside]
    is [true] exactly when both keys are in stacks and the columns that
    [getStackNumber] gives for them differ by one. *)
Theorem isBeside_columns (stacks : list (list string)) (a b : string) :
  NoDup (concat stacks) →
  isBeside stacks a b = true
  ↔ ∃ i j, getStackNumber stacks a = Some i ∧ getStackNumber stacks b = Some j
           ∧ Z.abs (j - i) = 1%Z.
Proof.
  intros Hnodup. unfold isBeside.
  destruct (stackNr_loop stacks 0 a b (-10, -10)%Z) as [f s] eqn:Hloop.
  destruct (stackNr_loop_both a b stacks f s Hnodup Hloop) as [Hboth Hset].
  destruct (stackNr_loop_range a b stacks 0 (-10, -10)%Z) as [Hf Hs].
  rewrite Hloop in Hf, Hs. simpl in Hf, Hs. rewrite Z.eqb_eq. split.
  - intros Habs. destruct Hset as [? ?]; [lia..|]. eauto.
  - intros (i & j & Hi & Hj & Habs).
    destruct (proj2 Hboth) as [Hf' Hs'].
    { exists i, j. repeat split; [done..|]. lia. }
    destruct (Hset Hf' Hs'). congruence.
Qed.

(** X3.  In such a world [isLeftOf] and [isRightOf] compare the columns of
    the two keys, at any distance. *)
Theorem isLeftOf_isRightOf_columns (stacks : list (list string)) (a b : string) :
  NoDup (concat stacks) →
  (isLeftOf stacks a b = true
   ↔ ∃ i j, getStackNumber stacks a = Some i ∧ getStackNumber stacks b = Some j
            ∧ (i < j)%Z)
  ∧ (isRightOf stacks a b = true
     ↔ ∃ i j, getStackNumber stacks a = Some i ∧ getStackNumber stacks b = Some j
              ∧ (j < i)%Z).
Proof.
  intros Hnodup. unfold isLeftOf, isRightOf.
  destruct (stackNr_loop stacks 0 a b (-10, -10)%Z) as [f s] eqn:Hloop.
  destruct (stackNr_loop_both a b stacks f s Hnodup Hloop) as [Hboth Hset].
  rewrite !andb_true_iff, !negb_true_iff, !Z.eqb_neq, !Z.ltb_lt.
  split; split.
  - intros [[Hs Hf] Hlt]. destruct (Hset Hf Hs). exists f, s.
    repeat split; [done..|]. lia.
  - intros (i & j & Hi & Hj & Hlt).
    destruct (proj2 Hboth) as [Hf' Hs'].
    { exists i, j. repeat split; [done..|]. lia. }
    destruct (Hset Hf' Hs'). split; [done|]. assert (f = i ∧ s = j) by
      (split; congruence). lia.
  - intros [[Hs Hf] Hlt]. destruct (Hset Hf Hs). exists f, s.
    repeat split; [done..|]. lia.
  - intros (i & j & Hi & Hj & Hlt).
    destruct (proj2 Hboth) as [Hf' Hs'].
    { exists i, j. repeat split; [done..|]. lia. }
    destruct (Hset Hf' Hs'). split; [done|]. assert (f = i ∧ s = j) by
      (split; congruence). lia.
Qed.

(** Exchanging the two keys exchanges the two numbers. *)
Lemma stackNr_scan_swap (a b : string) stack n x y :
  a ≠ b →
  stackNr_scan stack n b a (y, x)
  = ((stackNr_scan stack n a b (x, y)).2, (stackNr_scan stack n a b (x, y)).1).
Proof.
  intros Hne. induction stack as [|object stack IH]; simpl; [done|].
  rewrite !js_eq_Str. repeat case_bool_decide; try done. congruence.
Qed.

Lemma stackNr_loop_swap (a b : string) stacks n x y :
  a ≠ b →
  stackNr_loop stacks n b a (y, x)
  = ((stackNr_loop stacks n a b (x, y)).2, (stackNr_loop stacks n a b (x, y)).1).
Proof.
  intros Hne. revert n x y. induction stacks as [|stack stacks IH];
    intros n x y; simpl; [done|].
  rewrite (stackNr_scan_swap a b) by done.
  destruct (stackNr_scan stack (Z.of_nat n) a b (x, y)) as [x' y']. apply IH.
Qed.

(** With the same key twice, the second number is never written. *)
Lemma stackNr_loop_same (a : string) stacks n nrs :
  (stackNr_loop stacks n a a nrs).2 = nrs.2.
Proof.
  revert n nrs. induction stacks as [|stack stacks IH]; intros n nrs; simpl;
    [done|].
  rewrite IH. clear IH. induction stack as [|object stack IH]; simpl; [done|].
  by destruct (js_eq object a).
Qed.

(** X4.  For all stacks and keys, [isLeftOf(a, b)] is [isRightOf(b, a)], and
    [isBeside] does not depend on the order of its two keys. *)
Theorem isLeftOf_isRightOf_swap (stacks : list (list string)) (a b : string) :
  isLeftOf stacks a b = isRightOf stacks b a
  ∧ isBeside stacks a b = isBeside stacks b a.
Proof.
  destruct (decide (a = b)) as [->|Hne].
  - split; [|done]. unfold isLeftOf, isRightOf.
    pose proof (stackNr_loop_same b stacks 0 (-10, -10)%Z) as Hsame.
    destruct (stackNr_loop stacks 0 b b (-10, -10)%Z) as [f s].
    simpl in Hsame. by subst.
  - unfold isLeftOf, isRightOf, isBeside.
    rewrite (stackNr_loop_swap a b) by done.
    destruct (stackNr_loop stacks 0 a b (-10, -10)%Z) as [f s]. simpl. split.
    + by rewrite (andb_comm (negb (s =? -10)%Z)).
    + f_equal. lia.
Qed.

(** ** The relations within one stack *)

Lemma isAbove_loop_spec (stack : list string) (found : bool) (above under : string) :
  isAbove_loop stack found above under = true
  ↔ (found = true ∧ above ∈ stack)
    ∨ (∃ i j, (i < j)%nat ∧ stack !! i = Some under ∧ stack !! j = Some above)
    ∨ (under = "floor" ∧ above ∈ stack).
Proof.
  revert found. induction stack as [|object stack IH]; intros found; simpl.
  - split; [done|].
    intros [[_ ?%elem_of_nil]|[(i & j & _ & ? & _)|[_ ?%elem_of_nil]]]; done.
  - rewrite !js_eq_Str.
    destruct (decide (object = above)) as [->|Habove].
    + rewrite (bool_decide_eq_true_2 (above = above)) by done.
      rewrite !andb_true_r.
      destruct found; simpl; [split; [|done]; intros _; left; split; [done|left]|].
      destruct (decide (under = "floor")) as [->|Hfloor].
      * rewrite bool_decide_eq_true_2 by done. split; [|done].
        intros _. right. right. split; [done|left].
      * rewrite (bool_decide_eq_false_2 (under = "floor")) by done.
        rewrite IH. split.
        -- intros [[Hunder Hin]|[(i & j & ? & ? & ?)|[? ?]]]; [| |done].
           ++ apply bool_decide_eq_true in Hunder. subst.
              apply list_elem_of_lookup in Hin as [j Hj].
              right. left. exists 0%nat, (S j). repeat split; [lia|done..].
           ++ right. left. exists (S i), (S j). repeat split; [lia|done..].
        -- intros [[? _]|[(i & j & Hlt & Hi & Hj)|[? _]]]; [done| |done].
           destruct j as [|j]; [lia|]. destruct i as [|i]; simpl in Hi, Hj.
           ++ left. injection Hi as ->. split; [by apply bool_decide_eq_true|].
              by eapply list_elem_of_lookup_2.
           ++ right. left. exists i, j. repeat split; [lia|done..].
    + rewrite (bool_decide_eq_false_2 (object = above)) by done.
      rewrite !andb_false_r, IH. split.
      * intros [[Hfound Hin]|[(i & j & ? & ? & ?)|[? ?]]].
        -- apply orb_true_iff in Hfound as [->|Hunder].
           ++ left. split; [done|by right].
           ++ apply bool_decide_eq_true in Hunder. subst.
              apply list_elem_of_lookup in Hin as [j Hj].
              right. left. exists 0%nat, (S j). repeat split; [lia|done..].
        -- right. left. exists (S i), (S j). repeat split; [lia|done..].
        -- right. right. split; [done|by right].
      * intros [[-> Hin]|[(i & j & Hlt & Hi & Hj)|[-> Hin]]].
        -- left. split; [done|]. apply elem_of_cons in Hin as [?|?]; congruence.
        -- destruct j as [|j]; [lia|]. destruct i as [|i]; simpl in Hi, Hj.
           ++ left. injection Hi as ->. split.
              ** apply orb_true_iff. right. by apply bool_decide_eq_true.
              ** by eapply list_elem_of_lookup_2.
           ++ right. left. exists i, j. repeat split; [lia|done..].
        -- right. right. split; [done|].
           apply elem_of_cons in Hin as [?|?]; congruence.
Qed.

(** X5.  [isAbove(stack, above, under)] is [true] exactly when the form of
    [above] is not floor and [above] occurs in the stack after an entry
    [under], or [under] is ["floor"] and [above] is anywhere in the stack. *)
Theorem isAbove_spec (stack : list string) (above under : string)
    (st : WorldState) :
  isAbove stack above under st = true
  ↔ getObjectForm above st ≠ Some floor
    ∧ ((∃ i j, (i < j)%nat ∧ stack !! i = Some under ∧ stack !! j = Some above)
       ∨ (under = "floor" ∧ above ∈ stack)).
Proof.
  unfold isAbove, form_is. case_bool_decide as Hform; simpl.
  - split; [done|]. by intros [? _].
  - rewrite isAbove_loop_spec. split.
    + intros [[? _]|?]; [done|]. by split.
    + intros [_ ?]. by right.
Qed.

Lemma isUnder_loop_isAbove (stack : list string) (found : bool)
    (under above : jsstr) :
  js_eq under "floor" = false →
  isUnder_loop stack found under above = isAbove_loop stack found above under.
Proof.
  intros Hfloor. revert found. induction stack as [|object stack IH];
    intros found; simpl; [done|].
  rewrite Hfloor. simpl. by rewrite IH.
Qed.

(** X6.  [isUnder(stack, under, above)] is [isAbove(stack, above, under)],
    except that it is [false] when the form of [under] is floor. *)
Theorem isUnder_isAbove (stack : list string) (under above : jsstr)
    (st : WorldState) :
  isUnder stack under above st
  = negb (form_is (getObjectForm under st) floor) && isAbove stack above under st.
Proof.
  unfold isUnder, isAbove.
  destruct (form_is (getObjectForm under st) floor) eqn:Hunder; simpl.
  - by rewrite andb_false_r.
  - rewrite andb_true_r.
    destruct (negb (form_is (getObjectForm above st) floor)); [|done].
    apply isUnder_loop_isAbove.
    unfold form_is, getObjectForm in Hunder.
    destruct (js_eq under "floor"); [|done].
    by rewrite bool_decide_eq_true_2 in Hunder.
Qed.

Lemma isInside_loop_found (stack : list string) (inside below : string) :
  isInside_loop stack true inside below = true ↔ stack !! 0%nat = Some inside.
Proof.
  destruct stack as [|object stack]; simpl; [done|].
  rewrite js_eq_Str, bool_decide_eq_true. split; congruence.
Qed.

Lemma isInside_loop_spec (stack : list string) (inside below : string) :
  NoDup stack →
  isInside_loop stack false inside below = true
  ↔ ∃ i, stack !! i = Some below ∧ stack !! S i = Some inside.
Proof.
  induction stack as [|object stack IH]; intros Hnodup; simpl.
  - split; [done|]. by intros (i & ? & _).
  - apply NoDup_cons in Hnodup as [Hfresh Hnodup]. rewrite js_eq_Str.
    destruct (decide (object = below)) as [->|Hbelow].
    + rewrite bool_decide_eq_true_2, isInside_loop_found by done. split.
      * intros ?. by exists 0%nat.
      * intros ([|i] & Hi & Hnext); [done|].
        simpl in Hi. apply list_elem_of_lookup_2 in Hi. done.
    + rewrite bool_decide_eq_false_2, IH by done. split.
      * intros (i & ? & ?). by exists (S i).
      * intros ([|i] & Hi & Hnext); [simpl in Hi; congruence|]. by exists i.
Qed.

(** X7.  In a stack without repeated keys, [isInside(stack, inside, below)]
    is [true] exactly when the form of [below] is not table and [inside] is
    the entry right after [below]. *)
Theorem isInside_spec (stack : list string) (inside below : string)
    (st : WorldState) :
  NoDup stack →
  isInside stack inside below st = true
  ↔ getObjectForm below st ≠ Some table
    ∧ ∃ i, stack !! i = Some below ∧ stack !! S i = Some inside.
Proof.
  intros Hnodup. unfold isInside, form_is.
  case_bool_decide as Hform; simpl.
  - split; [done|]. by intros [? _].
  - rewrite isInside_loop_spec by done. split; [by split|by intros [_ ?]].
Qed.

Lemma isOnTop_loop_isInside (stack : list string) (key : nat) (found : bool)
    (above below : jsstr) :
  js_eq below "floor" = false →
  isOnTop_loop stack key found above below
  = isInside_loop stack found above below.
Proof.
  intros Hfloor. revert key found. induction stack as [|object stack IH];
    intros key found; simpl; [done|].
  rewrite Hfloor. simpl. destruct found; [done|]. apply IH.
Qed.

(** X8.  [isOnTop] and [isInside] are the same test whenever both get past
    their guards and the lower key is not ["floor"]: neither looks at
    whether the lower object is a box. *)
Theorem isOnTop_isInside (stack : list string) (above below : jsstr)
    (st : WorldState) :
  getObjectForm above st ≠ Some floor →
  getObjectForm below st ≠ Some table →
  below ≠ Str "floor" →
  isOnTop stack above below st = isInside stack above below st.
Proof.
  intros Habove Hbelow Hfloor. unfold isOnTop, isInside, form_is.
  rewrite !bool_decide_eq_false_2 by done. simpl.
  apply isOnTop_loop_isInside. by apply js_eq_false.
Qed.

(** X9.  Whatever [isOnTop] accepts, [isAbove] accepts. *)
Theorem isOnTop_isAbove (stack : list string) (above below : jsstr)
    (st : WorldState) :
  isOnTop stack above below st = true → isAbove stack above below st = true.
Proof.
  unfold isOnTop, isAbove.
  destruct (negb (form_is (getObjectForm above st) floor)); [|done].
  generalize 0%nat as key. generalize false as found.
  induction stack as [|object stack IH]; intros found key; simpl; [done|].
  destruct found; simpl.
  - by intros ->.
  - destruct (js_eq below "floor" && js_eq object above && bool_decide (key = 0%nat))
      eqn:Hfloor.
    + apply andb_prop in Hfloor as [Hfloor _].
      by rewrite Hfloor.
    + intros Hloop. apply IH in Hloop. rewrite Hloop.
      by destruct (js_eq below "floor" && js_eq object above).
Qed.

(** ** The candidates of the goal resolver *)

Lemma getObjectKeys_loop_spec entries (object : Parser_Object) (st : WorldState)
    (key : string) :
  key ∈ getObjectKeys_loop entries object st
  ↔ ∃ def, (key, def) ∈ entries ∧ matchesDescription object def
           ∧ doesObjectExist (holding st) (stacks st) key = true.
Proof.
  induction entries as [|[k def] entries IH]; simpl.
  - split; [by intros ?%elem_of_nil|]. by intros (? & ?%elem_of_nil & _).
  - assert (Hmatch :
      (js_eq (obj_form object) (form_name (form def))
       || js_eq (obj_form object) "anyform")
      && (js_eq (obj_color object) (color def) || js_eq (obj_color object) Nil)
      && (js_eq (obj_size object) (size_name (size def))
          || js_eq (obj_size object) Nil) = true
      ↔ matchesDescription object def).
    { unfold matchesDescription.
      rewrite !andb_true_iff, !orb_true_iff, !js_eq_true. tauto. }
    destruct (_ && _ && _) eqn:Hfilters.
    + apply proj1 in Hmatch. specialize (Hmatch eq_refl).
      destruct (doesObjectExist _ _ k) eqn:Hexists.
      * rewrite elem_of_cons, IH. split.
        -- intros [->|(d & ? & ? & ?)].
           ++ exists def. split; [left|done].
           ++ exists d. split; [by right|done].
        -- intros (d & [[= -> ->]|?]%elem_of_cons & ? & ?); [by left|].
           right. by exists d.
      * rewrite IH. split.
        -- intros (d & ? & ? & ?). exists d. split; [by right|done].
        -- intros (d & [[= -> ->]|?]%elem_of_cons & ? & ?); [congruence|].
           by exists d.
    + rewrite IH. split.
      * intros (d & ? & ? & ?). exists d. split; [by right|done].
      * intros (d & [[= -> ->]|?]%elem_of_cons & Hd & ?); [|by exists d].
        apply Hmatch in Hd. congruence.
Qed.


(** ** What the goal resolver returns and throws *)

Lemma getPossibleMoves_throws command objectToMove location st err :
  getPossibleMoves command objectToMove location st = Throw err →
  err = TypeError.
Proof.
  unfold getPossibleMoves.
  destruct (negb _); [|done]. destruct (_ || _); [done|].
  destruct (_ || _); [|done].
  destruct location as [location|]; simpl; [|by intros [= <-]].
  destruct (obj_location _); [|done].
  destruct (obj_object _); simpl; [done|]. by intros [= <-].
Qed.

Lemma interpretCommand_loop_throws cmd objectRelations st acc err :
  interpretCommand_loop cmd objectRelations st acc = Throw err →
  err = TypeError.
Proof.
  revert acc. induction objectRelations as [|objectRelation rest IH];
    intros acc; simpl; [done|].
  destruct (getPossibleMoves _ _ _ _) eqn:Hmoves; simpl; [apply IH|].
  intros [= <-]. by eapply getPossibleMoves_throws.
Qed.

(** X11.  [interpretCommand] never returns an empty formula, and what it
    throws is one of its two messages or the [TypeError] of reading a
    missing part of the command. *)
Theorem interpretCommand_outcomes (cmd : Parser_Command) (st : WorldState) :
  match interpretCommand cmd st with
  | Return formula => formula ≠ []
  | Throw err =>
      err = Thrown "No possible objects found"
      ∨ err = Thrown "No possible objects to move"
      ∨ err = TypeError
  end.
Proof.
  unfold interpretCommand.
  destruct (cmd_entity cmd) as [entity|]; simpl.
  - unfold getRequestedObjectRelations.
    destruct (obj_location (ent_object entity)) as [location|]; simpl.
    + destruct (obj_object (ent_object entity)); simpl; [|auto].
      case_bool_decide; simpl; [auto|].
      destruct (interpretCommand_loop _ _ _ _) eqn:Hloop; simpl.
      * case_bool_decide as Hlength; [auto|]. intros E. by rewrite E in Hlength.
      * apply interpretCommand_loop_throws in Hloop. auto.
    + case_bool_decide; simpl; [auto|].
      destruct (interpretCommand_loop _ _ _ _) eqn:Hloop; simpl.
      * case_bool_decide as Hlength; [auto|]. intros E. by rewrite E in Hlength.
      * apply interpretCommand_loop_throws in Hloop. auto.
  - destruct (getPossibleMoves _ _ _ _) eqn:Hmoves; simpl.
    + case_bool_decide as Hlength; [auto|]. intros E. by rewrite E in Hlength.
    + apply getPossibleMoves_throws in Hmoves. auto.
Qed.


Lemma Forall_flat_map {A B : Type} (P : B → Prop) (f : A → list B) (l : list A) :
  (∀ x, x ∈ l → Forall P (f x)) → Forall P (flat_map f l).
Proof.
  induction l as [|x l IH]; intros Hf; simpl; [done|].
  apply Forall_app. split; [apply Hf; left|].
  apply IH. intros ? ?. apply Hf. by right.
Qed.

(** X12.  For an object named in the command, every literal that
    [getPossibleMoves] returns is [holding] of that object, or places it in
    the command's relation to a key for which [isMoveValid] holds. *)
Theorem getPossibleMoves_valid (command objectToMove : string)
    (location : option Parser_Location) (st : WorldState) (literals : Conjunction) :
  objectToMove ≠ "itself" →
  getPossibleMoves command objectToMove location st = Return literals →
  Forall (λ lit,
    (relation lit = "holding" ∧ args lit = [objectToMove])
    ∨ ∃ place key,
        location = Some place ∧ relation lit = loc_relation place
        ∧ args lit = [objectToMove; key]
        ∧ isMoveValid objectToMove (loc_relation place) key st = true) literals.
Proof.
  intros Hitself. unfold getPossibleMoves.
  destruct (negb _); [|by intros [= <-]].
  destruct (_ || _);
    [intros [= <-]; constructor; [by left|constructor]|].
  destruct (_ || _); [|by intros [= <-]].
  destruct location as [place|]; simpl; [|done].
  assert (Hplacement : ∀ key,
    Forall (λ lit,
      (relation lit = "holding" ∧ args lit = [objectToMove])
      ∨ ∃ place' key',
          Some place = Some place' ∧ relation lit = loc_relation place'
          ∧ args lit = [objectToMove; key']
          ∧ isMoveValid objectToMove (loc_relation place') key' st = true)
      (placementLiterals objectToMove (loc_relation place) key st)).
  { intros key. unfold placementLiterals.
    destruct (isMoveValid _ _ _ _) eqn:Hvalid; [|done].
    rewrite bool_decide_eq_false_2 by done.
    constructor; [|constructor]. right. by exists place, key. }
  destruct (obj_location _) as [nested|].
  - destruct (obj_object _) as [inner|]; simpl; [|done].
    intros [= <-]. apply Forall_flat_map. intros ? _. apply Hplacement.
  - intros [= <-]. apply Forall_flat_map. intros ? _. apply Hplacement.
Qed.

Lemma getObject_loop_notInTable entries (key : string) :
  (∀ def, (key, def) ∉ entries) →
  getObjectForm_loop entries key = None ∧ getObjectSize_loop entries key = None.
Proof.
  induction entries as [|[k def] entries IH]; intros Hkey; simpl; [done|].
  rewrite js_eq_Str. case_bool_decide as Hk.
  - subst. exfalso. apply (Hkey def). left.
  - apply IH. intros d Hd. apply (Hkey d). by right.
Qed.

(** The rule table accepts every target for a key that has no entry. *)
Lemma isMoveValid_notInTable (key : string) (relation : string)
    (target : string) (st : WorldState) :
  notInTable key st → key ≠ "floor" → target ≠ key →
  isMoveValid key relation target st = true.
Proof.
  intros Hkey Hfloor Htarget.
  destruct (getObject_loop_notInTable (objects st) key Hkey) as [Hform Hsize].
  assert (Hform' : getObjectForm key st = None).
  { unfold getObjectForm. rewrite js_eq_Str.
    by rewrite (bool_decide_eq_false_2 (key = "floor")). }
  assert (Hsize' : getObjectSize key st = None) by done.
  unfold isMoveValid. rewrite Hform', Hsize', js_eq_Str.
  rewrite (bool_decide_eq_false_2 (target = key)) by done.
  unfold form_is, size_is.
  by destruct (getObjectForm target st) as [[]|],
    (getObjectSize target st) as [[]|],
    (bool_decide (relation = "inside")), (bool_decide (relation = "ontop")).
Qed.

(** X13.  When the command names no object, the rule table is asked about
    the key ["itself"], not about the held object: with a plain location
    description, every candidate key gives a literal for the held
    object. *)
Theorem getPossibleMoves_held_unchecked (command : string)
    (place : Parser_Location) (st : WorldState) (held : string) :
  placementCommand command →
  obj_location (ent_object (loc_entity place)) = None →
  holding st = Str held →
  notInTable "itself" st →
  getPossibleMoves command "itself" (Some place) st
  = Return (map (λ key, mkLiteral true (loc_relation place) [held; key])
              (getObjectKeys (ent_object (loc_entity place)) st)).
Proof.
  intros Hcommand Hplain Hheld Hitself.
  assert (getPossibleMoves command "itself" (Some place) st
          = Return (flat_map (λ locationObjectKey,
                      placementLiterals "itself" (loc_relation place)
                        locationObjectKey st)
                      (getObjectKeys (ent_object (loc_entity place)) st))) as ->.
  { unfold getPossibleMoves.
    destruct Hcommand as [->|[->| ->]]; simpl; by rewrite Hplain. }
  f_equal.
  assert (Hkeys : ∀ key, key ∈ getObjectKeys (ent_object (loc_entity place)) st →
            key ≠ "itself").
  { intros key Hkey ->.
    unfold getObjectKeys in Hkey. destruct (js_eq _ "floor").
    - by apply list_elem_of_singleton in Hkey.
    - apply getObjectKeys_loop_spec in Hkey as (def & Hdef & _).
      by apply (Hitself def). }
  induction (getObjectKeys _ st) as [|key keys IH]; simpl; [done|].
  rewrite IH by (intros ? ?; apply Hkeys; by right). clear IH.
  unfold placementLiterals.
  rewrite isMoveValid_notInTable; [|done|done|apply Hkeys; left].
  by rewrite Hheld.
Qed.

(** ** The edges of a node *)

(** X14.  [outgoingEdges] raises [TypeError] exactly when the arm is not
    over a column (which includes a world without columns); otherwise it
    returns. *)
Theorem outgoingEdges_throws (node : SNode) :
  (armInRange (state node) → ∃ edges, outgoingEdges node = Return edges)
  ∧ (¬ armInRange (state node) → outgoingEdges node = Throw TypeError).
Proof.
  unfold armInRange, outgoingEdges, js_index. split.
  - intros Harm. destruct (Z.leb_spec 0 (arm (state node))); [|lia].
    destruct (lookup_lt_is_Some_2 (stacks (state node))
                (Z.to_nat (arm (state node)))) as [column ->]; [lia|].
    simpl. eauto.
  - intros Harm. destruct (Z.leb_spec 0 (arm (state node))); [|done].
    rewrite (proj2 (lookup_ge_None _ _)); [done|]. lia.
Qed.

Lemma outgoingEdges_inv (node : SNode) (edges : list EdgeWithCommand)
    (edge : EdgeWithCommand) :
  outgoingEdges node = Return edges → edge ∈ edges →
  successor (state node) (state (to edge)).
Proof.
  intros Hedges Hedge. exists edges, edge. destruct node as [st].
  repeat split; [done..|]. by destruct (to edge).
Qed.

(** Every transition starts and ends with the arm over a column. *)
Lemma successor_armInRange (s s' : WorldState) :
  successor s s' → armInRange s ∧ armInRange s'.
Proof.
  intros Hstep.
  assert (Hs : armInRange s).
  { destruct Hstep as (edges & _ & Hedges & _).
    unfold outgoingEdges in Hedges. simpl in Hedges.
    destruct (js_index (stacks s) (arm s)) as [column|] eqn:Hcolumn; [|done].
    apply js_index_Some in Hcolumn as [? Hcolumn%lookup_lt_Some].
    unfold armInRange. simpl in *. lia. }
  split; [done|]. unfold armInRange in *.
  destruct Hstep as (edges & edge & Hedges & Hedge & Hto).
  unfold outgoingEdges in Hedges. simpl in Hedges.
  destruct (js_index (stacks s) (arm s)) as [column|]; [|done].
  simpl in Hedges. injection Hedges as <-.
  rewrite !elem_of_app in Hedge. destruct Hedge as [H|[H|[H|H]]].
  - destruct (Z.ltb_spec 0 (arm s)); [|by apply elem_of_nil in H].
    apply list_elem_of_singleton in H as ->. injection Hto as <-. simpl. lia.
  - destruct (Z.ltb_spec (arm s) (Z.of_nat (length (stacks s)) - 1));
      [|by apply elem_of_nil in H].
    apply list_elem_of_singleton in H as ->. injection Hto as <-. simpl. lia.
  - destruct (truthy (holding s) && _); [|by apply elem_of_nil in H].
    destruct (holding s); [by apply elem_of_nil in H|].
    apply list_elem_of_singleton in H as ->. injection Hto as <-. simpl.
    by rewrite length_alter.
  - destruct (negb _ && _); [|by apply elem_of_nil in H].
    apply list_elem_of_singleton in H as ->. injection Hto as <-. simpl.
    by rewrite length_alter.
Qed.

(** X15.  Every node that [outgoingEdges] produces can be expanded in its
    turn: its arm is over a column, so [outgoingEdges] returns on it. *)
Theorem outgoingEdges_expandable (node : SNode) (edges : list EdgeWithCommand)
    (edge : EdgeWithCommand) :
  outgoingEdges node = Return edges → edge ∈ edges →
  armInRange (state (to edge))
  ∧ ∃ edges', outgoingEdges (to edge) = Return edges'.
Proof.
  intros Hedges Hedge.
  destruct (successor_armInRange _ _ (outgoingEdges_inv _ _ _ Hedges Hedge))
    as [_ Harm].
  split; [done|].
  unfold armInRange, outgoingEdges, js_index in *.
  destruct (Z.leb_spec 0 (arm (state (to edge)))); [|lia].
  destruct (lookup_lt_is_Some_2 (stacks (state (to edge)))
              (Z.to_nat (arm (state (to edge))))) as [column ->]; [lia|].
  simpl. eauto.
Qed.

Lemma outgoingEdges_shape_lemma (node : SNode) (edges : list EdgeWithCommand) :
  outgoingEdges node = Return edges →
  (length edges ≤ 3)%nat
  ∧ NoDup (map command edges)
  ∧ NoDup (map (λ edge, arm (state (to edge))) edges)
  ∧ ¬ ("d" ∈ map command edges ∧ "p" ∈ map command edges)
  ∧ Forall (λ edge,
      from edge = node ∧ cost edge = 1%Z
      ∧ command edge ∈ ["l"; "r"; "d"; "p"]
      ∧ objects (state (to edge)) = objects (state node)) edges.
Proof.
  unfold outgoingEdges.
  destruct (js_index _ _) as [column|]; simpl; [|done]. intros [= <-].
  destruct (0 <? arm (state node))%Z,
    (arm (state node) <? Z.of_nat (length (stacks (state node))) - 1)%Z,
    (truthy (holding (state node))) eqn:Hheld; simpl;
    try match goal with
        | |- context [if ?b then _ else _] => destruct b
        end;
    try (destruct (holding (state node)); [done|]);
    try match goal with
        | |- context [negb (bool_decide ?P)] => destruct (bool_decide P)
        end; simpl;
    (split; [lia|]);
    (split; [apply (bool_decide_unpack _); vm_compute; exact I|]);
    (split; [repeat (apply NoDup_cons; split;
                       [rewrite ?elem_of_cons, ?elem_of_nil; lia|]);
             apply NoDup_nil_2|]);
    (split; [intros [Hd Hp];
             apply (bool_decide_pack _) in Hd; apply (bool_decide_pack _) in Hp;
             vm_compute in Hd, Hp; solve [destruct Hd | destruct Hp]|]);
    repeat (apply Forall_cons; split;
              [repeat split; apply (bool_decide_unpack _); vm_compute; exact I|]);
    apply Forall_nil_2.
Qed.

(** X16.  The edges of a node: at most three, with different commands among
    ["l"], ["r"], ["d"], ["p"] (never both a drop and a pick) and arms that
    differ from each other; each starts at the node, costs 1 and keeps the
    object table. *)
Theorem outgoingEdges_shape (node : SNode) (edges : list EdgeWithCommand) :
  outgoingEdges node = Return edges →
  (length edges ≤ 3)%nat
  ∧ NoDup (map command edges)
  ∧ NoDup (map (λ edge, arm (state (to edge))) edges)
  ∧ ¬ ("d" ∈ map command edges ∧ "p" ∈ map command edges)
  ∧ Forall (λ edge,
      from edge = node ∧ cost edge = 1%Z
      ∧ command edge ∈ ["l"; "r"; "d"; "p"]
      ∧ objects (state (to edge)) = objects (state node)) edges.
Proof. apply outgoingEdges_shape_lemma. Qed.

(** The transitions as rules: an arm move when there is a column on that
    side, and a pick when nothing is held over a column that is not empty. *)
Lemma successor_left (s : WorldState) :
  armInRange s → (0 < arm s)%Z →
  successor s (mkWorldState (stacks s) (holding s) (arm s - 1) (objects s)
                 (examples s)).
Proof.
  intros Harm Hleft. unfold armInRange in Harm.
  destruct (lookup_lt_is_Some_2 (stacks s) (Z.to_nat (arm s))) as [column Hcolumn];
    [lia|].
  assert (Hindex : js_index (stacks s) (arm s) = Some column)
    by (apply js_index_Some; split; [lia|done]).
  unfold successor, outgoingEdges. cbn [state]. rewrite Hindex.
  eexists _, _. split; [reflexivity|]. split; [|shelve].
  rewrite !elem_of_app. left.
  destruct (Z.ltb_spec 0 (arm s)); [left|lia].
  Unshelve. reflexivity.
Qed.

Lemma successor_right (s : WorldState) :
  armInRange s → (arm s < Z.of_nat (length (stacks s)) - 1)%Z →
  successor s (mkWorldState (stacks s) (holding s) (arm s + 1) (objects s)
                 (examples s)).
Proof.
  intros Harm Hright. unfold armInRange in Harm.
  destruct (lookup_lt_is_Some_2 (stacks s) (Z.to_nat (arm s))) as [column Hcolumn];
    [lia|].
  assert (Hindex : js_index (stacks s) (arm s) = Some column)
    by (apply js_index_Some; split; [lia|done]).
  unfold successor, outgoingEdges. cbn [state]. rewrite Hindex.
  eexists _, _. split; [reflexivity|]. split; [|shelve].
  rewrite !elem_of_app. right. left.
  destruct (Z.ltb_spec (arm s) (Z.of_nat (length (stacks s)) - 1)); [left|lia].
  Unshelve. reflexivity.
Qed.

Lemma successor_pick (s : WorldState) (column : list string) :
  (0 ≤ arm s)%Z → stacks s !! Z.to_nat (arm s) = Some column →
  truthy (holding s) = false → column ≠ [] →
  successor s (mkWorldState
                 (alter (λ stack, removelast stack) (Z.to_nat (arm s)) (stacks s))
                 (topOf column) (arm s) (objects s) (examples s)).
Proof.
  intros Harm Hcolumn Hfalsy Hne.
  assert (Hindex : js_index (stacks s) (arm s) = Some column)
    by (by apply js_index_Some).
  unfold successor, outgoingEdges. cbn [state]. rewrite Hindex.
  eexists _, _. split; [reflexivity|]. split; [|shelve].
  rewrite !elem_of_app. right. right. right.
  rewrite Hfalsy, (bool_decide_eq_false_2 (length column = 0%nat));
    [left|by destruct column].
  Unshelve. reflexivity.
Qed.

(** X17.  Arm moves and drops can be undone in one step: the target of an
    edge labelled ["l"], ["r"] or ["d"] has an edge back to the state the
    edge came from. *)
Theorem successor_undo (s : WorldState) (edges : list EdgeWithCommand)
    (edge : EdgeWithCommand) :
  outgoingEdges (mkSNode s) = Return edges → edge ∈ edges →
  command edge ≠ "p" →
  successor (state (to edge)) s.
Proof.
  intros Hedges Hedge Hcommand.
  destruct (successor_armInRange s (state (to edge))) as [Harm Harm'].
  { exists edges, edge. repeat split; [done..|]. by destruct (to edge). }
  unfold outgoingEdges in Hedges. simpl in Hedges.
  destruct (js_index (stacks s) (arm s)) as [column|] eqn:Hcolumn; [|done].
  apply js_index_Some in Hcolumn as [Hpos Hcolumn].
  simpl in Hedges. injection Hedges as <-.
  destruct s as [sstacks sholding sarm sobjects sexamples]. simpl in *.
  rewrite !elem_of_app in Hedge. destruct Hedge as [H|[H|[H|H]]].
  - destruct (Z.ltb_spec 0 sarm); [|by apply elem_of_nil in H].
    apply list_elem_of_singleton in H as ->. simpl in *.
    pose proof (successor_right _ Harm') as Hback. simpl in Hback.
    replace (sarm - 1 + 1)%Z with sarm in Hback by lia.
    apply Hback. unfold armInRange in Harm. simpl in Harm. lia.
  - destruct (Z.ltb_spec sarm (Z.of_nat (length sstacks) - 1));
      [|by apply elem_of_nil in H].
    apply list_elem_of_singleton in H as ->. simpl in *.
    pose proof (successor_left _ Harm') as Hback. simpl in Hback.
    replace (sarm + 1 - 1)%Z with sarm in Hback by lia.
    apply Hback. lia.
  - destruct (truthy sholding && _); [|by apply elem_of_nil in H].
    destruct sholding as [|held]; [by apply elem_of_nil in H|].
    apply list_elem_of_singleton in H as ->. simpl in *.
    pose proof (successor_pick
      (mkWorldState (alter (λ stack, stack ++ [held]) (Z.to_nat sarm) sstacks)
         Nil sarm sobjects sexamples) (column ++ [held])) as Hback.
    simpl in Hback. unfold topOf in Hback. rewrite last_snoc in Hback.
    assert (alter (λ stack, removelast stack) (Z.to_nat sarm)
              (alter (λ stack, stack ++ [held]) (Z.to_nat sarm) sstacks)
            = sstacks) as Hid.
    { rewrite list_alter_alter_eq. apply list_alter_id.
      intros stack. simpl. apply removelast_last. }
    rewrite Hid in Hback.
    apply Hback; [done| |done|by destruct column].
    by rewrite list_lookup_alter_eq, Hcolumn.
  - destruct (negb _ && _); [|by apply elem_of_nil in H].
    apply list_elem_of_singleton in H as ->. done.
Qed.

(** ** Dropping and the goal test *)

(** X18.  A drop achieves the [ontop] goal for what it is dropped on: in
    the state after dropping [held] on a column in which it does not
    occur and which has no repeated key, the literal [ontop(held, x)]
    holds, where [x] is the former top of the column, or ["floor"] for an
    empty column. *)
Theorem drop_achieves_ontop (s : WorldState) (column : list string)
    (held : string) (pol : bool) :
  stacks s !! Z.to_nat (arm s) = Some column →
  NoDup (column ++ [held]) →
  getObjectForm held s ≠ Some floor →
  isInterpretationInCurrentWorldstate
    (mkLiteral pol "ontop" [held; support column])
    (mkWorldState
       (alter (λ stack, stack ++ [held]) (Z.to_nat (arm s)) (stacks s))
       Nil (arm s) (objects s) (examples s))
  = true.
Proof.
  intros Hcolumn Hnodup Hform.
  unfold isInterpretationInCurrentWorldstate. simpl.
  apply existsb_exists. exists (column ++ [held]). split.
  - apply list_elem_of_In. eapply list_elem_of_lookup_2.
    by rewrite list_lookup_alter_eq, Hcolumn.
  - unfold relationInStack, arg. simpl. unfold isOnTop, form_is.
    rewrite bool_decide_eq_false_2 by done. simpl.
    apply isOnTop_loop_spec; [done|]. unfold support.
    destruct column as [|top column _] using rev_ind; simpl.
    + right. done.
    + left. rewrite last_snoc. exists (length column).
      split.
      * rewrite <- app_assoc. simpl. by apply list_lookup_middle.
      * apply list_lookup_middle. rewrite length_app. simpl. lia.
Qed.

(** ** More on comparing nodes and on the goal test *)

Lemma compareNodes_outer_short (before oneStacks rest : list (list string))
    (column : list string) :
  Forall (λ stack, "" ∉ stack) oneStacks → column ≠ [] →
  compareNodes_outer (before ++ oneStacks) (oneStacks ++ column :: rest)
    (length before)
  = Throw TypeError.
Proof.
  intros Hkeys Hcolumn. revert before.
  induction Hkeys as [|stack oneStacks Hstack _ IH]; intros before; simpl.
  - rewrite app_nil_r, (proj2 (lookup_ge_None _ _)) by lia.
    by destruct column.
  - rewrite list_lookup_middle by done.
    rewrite compareNodes_inner_prefix by done. simpl.
    rewrite bool_decide_eq_true_2 by done. simpl.
    specialize (IH (before ++ [stack])).
    by rewrite length_app, Nat.add_1_r, <- app_assoc in IH.
Qed.

(** X19.  When holding and arm agree, the stacks of the first node hold no
    empty-string key and are a proper prefix of the stacks of the second,
    and the next column of the second is not empty, [compareNodes] does not
    answer: it raises [TypeError] on the missing column of the first
    node. *)
Theorem compareNodes_fewer_columns (one theOther : SNode)
    (column : list string) (rest : list (list string)) :
  holding (state one) = holding (state theOther) →
  arm (state one) = arm (state theOther) →
  stacks (state theOther) = stacks (state one) ++ column :: rest →
  column ≠ [] →
  (∀ stack, stack ∈ stacks (state one) → "" ∉ stack) →
  compareNodes one theOther = Throw TypeError.
Proof.
  intros Hholding Harm Hstacks Hcolumn Hkeys. unfold compareNodes.
  rewrite Hholding, js_eq_refl, Harm, Z.eqb_refl, Hstacks. simpl.
  apply (compareNodes_outer_short [] (stacks (state one)) rest column);
    [by apply Forall_forall|done].
Qed.

(** X20.  What [isGoal] computes: on a formula without empty conjunction,
    whether the first literal of some conjunction holds; and it throws only
    [TypeError], only when the formula has an empty conjunction. *)
Theorem isGoal_first_literals (formula : DNFFormula) (node : SNode) :
  ([] ∉ formula →
   isGoal formula node
   = Return (existsb (λ conjunction, firstLiteralHolds conjunction (state node))
               formula))
  ∧ ∀ err, isGoal formula node = Throw err → err = TypeError ∧ [] ∈ formula.
Proof.
  induction formula as [|conjunction formula [IHreturn IHthrow]]; simpl.
  - split; [done|]. by intros.
  - unfold firstLiteralHolds at 1. split.
    + rewrite not_elem_of_cons. intros [Hconj Hformula].
      destruct conjunction as [|lit conjunction]; [done|]. simpl.
      destruct (isInterpretationInCurrentWorldstate lit (state node)); [done|].
      by apply IHreturn.
    + intros err. destruct conjunction as [|lit conjunction]; simpl.
      * intros [= <-]. split; [done|left].
      * destruct (isInterpretationInCurrentWorldstate lit (state node));
          [done|].
        intros [? ?]%IHthrow. split; [done|by right].
Qed.

Lemma successor_objects (s s' : WorldState) :
  successor s s' → objects s' = objects s.
Proof.
  intros (column & _ & Hcases)%successor_cases.
  destruct Hcases as [->|[->|[(held & _ & _ & ->)|(_ & _ & ->)]]]; reflexivity.
Qed.

(** X21.  From a start state without empty keys, every state that the
    transitions reach has the same number of columns, the same number of
    objects (held or stacked), the same object table, and no empty key. *)
Theorem reachable_same_world (s s' : WorldState) :
  keysNonEmpty s → rtc successor s s' →
  keysNonEmpty s' ∧ length (stacks s') = length (stacks s) ∧ load s' = load s
  ∧ objects s' = objects s.
Proof.
  intros Hkeys Hreach.
  destruct (reachable_shape s s' Hkeys Hreach) as (? & ? & ?).
  do 3 (split; [done|]).
  clear - Hreach. induction Hreach as [s|s s1 s' Hstep _ IH]; [done|].
  rewrite IH. by apply successor_objects.
Qed.

(** ** The heuristic *)

Lemma accessTargetObject_scan_zero (stack : list string) (targetObject : jsstr) :
  (accessTargetObject_scan stack targetObject false 0).2 = 0%Z.
Proof.
  induction stack as [|object stack IH]; simpl; [done|].
  by destruct (js_eq object targetObject).
Qed.

Lemma accessTargetObject_loop_zero (stacks : list (list string))
    (targetObject : jsstr) :
  accessTargetObject_loop stacks targetObject false 0 = 0%Z.
Proof.
  induction stacks as [|stack stacks IH]; simpl; [done|].
  pose proof (accessTargetObject_scan_zero stack targetObject) as Hzero.
  destruct (accessTargetObject_scan stack targetObject false 0) as [found nr].
  simpl in *. subst nr. destruct found; [done|]. exact IH.
Qed.

(** X22.  [accessTargetObject] is 0 for every object and state: the loop
    leaves the stack in the round in which it finds the object, so no object
    above it is ever counted. *)
Theorem accessTargetObject_zero (targetObject : jsstr) (st : WorldState) :
  accessTargetObject targetObject st = 0%Z.
Proof. apply accessTargetObject_loop_zero. Qed.

Lemma num_add_NaN (a : jsnum) : num_add a NaN = NaN.
Proof. by destruct a. Qed.

(** The value is [NaN] for every relation whose branch leaves
    [minAccessTargetObject] unassigned. *)
Lemma getHeuristicForGoal_NaN (lit : Literal) (st : WorldState) :
  relation lit ∉ ["holding"; "inside"; "ontop"; "above"; "under"] →
  arg lit 1 ≠ Str "floor" →
  getHeuristicForGoal lit st = NaN.
Proof.
  rewrite !not_elem_of_cons. intros (? & ? & ? & ? & ? & _) Hfloor.
  unfold getHeuristicForGoal.
  rewrite (bool_decide_eq_false_2 (relation lit = "holding")) by done.
  rewrite (proj2 (js_eq_false _ _) Hfloor).
  rewrite (bool_decide_eq_false_2 (relation lit = "inside")),
    (bool_decide_eq_false_2 (relation lit = "ontop")),
    (bool_decide_eq_false_2 (relation lit = "above")),
    (bool_decide_eq_false_2 (relation lit = "under")) by done.
  simpl.
  destruct (bool_decide (relation lit = "beside")); [apply num_add_NaN|].
  destruct (bool_decide (relation lit = "leftof")); [apply num_add_NaN|].
  destruct (bool_decide (relation lit = "rightof")); [apply num_add_NaN|].
  done.
Qed.

Lemma getHeuristicForGoal_nonneg_lemma (lit : Literal) (st : WorldState) (z : Z) :
  getHeuristicForGoal lit st = Num z → (0 ≤ z)%Z.
Proof.
  unfold getHeuristicForGoal.
  destruct (bool_decide (relation lit = "holding")); [intros [= <-]; lia|].
  destruct (js_eq (arg lit 1) "floor").
  { destruct (js_eq (arg lit 0) (holding st)); intros [= <-]; lia. }
  unfold accessTargetObject. rewrite accessTargetObject_loop_zero.
  destruct (_ || _ || _ || _); [simpl; intros [= <-]; lia|].
  destruct (bool_decide (relation lit = "beside"));
    [by rewrite num_add_NaN|].
  destruct (bool_decide (relation lit = "leftof"));
    [by rewrite num_add_NaN|].
  destruct (bool_decide (relation lit = "rightof"));
    [by rewrite num_add_NaN|].
  done.
Qed.

(** X23.  [getHeuristicForGoal] never gives a negative number: its value is
    [NaN] or at least 0. *)
Theorem getHeuristicForGoal_nonneg (lit : Literal) (st : WorldState) (z : Z) :
  getHeuristicForGoal lit st = Num z → (0 ≤ z)%Z.
Proof. apply getHeuristicForGoal_nonneg_lemma. Qed.

Lemma heuristic_loop_bounds (formula : DNFFormula) (node : SNode) (m : Z) :
  [] ∉ formula → (0 ≤ m)%Z →
  ∃ h, heuristic_loop formula node m = Return h ∧ (0 ≤ h ≤ m)%Z.
Proof.
  revert m. induction formula as [|conjunction formula IH]; intros m; simpl.
  - intros _ ?. exists m. split; [done|lia].
  - rewrite not_elem_of_cons. intros [Hconj Hformula] Hm.
    destruct conjunction as [|lit conjunction]; [done|]. simpl.
    destruct (getHeuristicForGoal lit (state node)) as [z|] eqn:Hz.
    + apply getHeuristicForGoal_nonneg_lemma in Hz.
      destruct (Z.ltb_spec z m).
      * destruct (IH z Hformula Hz) as (h & -> & ?). exists h. split; [done|lia].
      * by apply IH.
    + by apply IH.
Qed.

Lemma heuristic_loop_throws (formula : DNFFormula) (node : SNode) (m : Z) err :
  heuristic_loop formula node m = Throw err → err = TypeError ∧ [] ∈ formula.
Proof.
  revert m. induction formula as [|conjunction formula IH]; intros m; simpl;
    [done|].
  destruct conjunction as [|lit conjunction]; simpl.
  - intros [= <-]. split; [done|left].
  - intros [? ?]%IH. split; [done|by right].
Qed.

(** X24.  The closure [heuristic] returns a number between 0 and 9999999
    on every formula without empty conjunction, and throws only
    [TypeError], only when the formula has an empty conjunction. *)
Theorem heuristic_bounds (formula : DNFFormula) (node : SNode) :
  ([] ∉ formula →
   ∃ h, heuristic formula node = Return h ∧ (0 ≤ h ≤ 9999999)%Z)
  ∧ ∀ err, heuristic formula node = Throw err → err = TypeError ∧ [] ∈ formula.
Proof.
  split.
  - intros Hformula. by apply heuristic_loop_bounds.
  - apply heuristic_loop_throws.
Qed.

(** X25.  For a goal whose conjunctions start with a [beside], [leftof] or
    [rightof] literal that does not name the floor, the heuristic is [NaN]
    on each literal and the closure returns 9999999 on every node: it gives
    the search no guidance. *)
Theorem heuristic_constant (formula : DNFFormula) (node : SNode) :
  Forall (λ conjunction,
    ∃ lit, conjunction !! 0%nat = Some lit
           ∧ relation lit ∈ ["beside"; "leftof"; "rightof"]
           ∧ arg lit 1 ≠ Str "floor") formula →
  heuristic formula node = Return 9999999%Z.
Proof.
  unfold heuristic. intros Hformula. generalize 9999999%Z as m.
  induction Hformula
    as [|conjunction formula (lit & Hlit & Hrelation & Hfloor) _ IH];
    intros m; simpl; [done|].
  rewrite Hlit. simpl. rewrite getHeuristicForGoal_NaN; [apply IH| |done].
  intros Hin.
  apply (bool_decide_pack _) in Hin.
  rewrite !elem_of_cons, elem_of_nil in Hrelation.
  destruct Hrelation as [E|[E|[E|[]]]]; rewrite E in Hin; by vm_compute in Hin.
Qed.

(** X26.  At a state that satisfies [holding(x)], with [x] in the gripper
    and in no stack, the heuristic of that literal is the distance of the
    arm from column 0, not 0. *)
Theorem heuristic_at_holding_goal (lit : Literal) (st : WorldState) (x : string) :
  relation lit = "holding" → args lit !! 0%nat = Some x →
  holding st = Str x → (∀ stack, stack ∈ stacks st → x ∉ stack) →
  isInterpretationInCurrentWorldstate lit st = true
  ∧ getHeuristicForGoal lit st = Num (Z.abs (arm st)).
Proof.
  intros Hrelation Harg Hheld Habsent. split.
  - unfold isInterpretationInCurrentWorldstate, arg.
    rewrite Hrelation, Harg, Hheld. simpl. apply js_eq_refl.
  - unfold getHeuristicForGoal, arg, getStackNumber.
    rewrite Hrelation, Harg.
    rewrite (proj2 (getStackNumber_loop_None (stacks st) 0 x) Habsent).
    simpl. by rewrite Z.sub_0_r.
Qed.

(** ** From the path to the plan *)




(** No command is pushed for edges that lead to another arm position. *)
Lemma matchingCommands_none (pathNode : SNode) (edges : list EdgeWithCommand) :
  (∀ edge, edge ∈ edges →
     ∃ different, compareNodes pathNode (to edge) = Return different
       ∧ (different = 0%Z → arm (state pathNode) = arm (state (to edge)))) →
  (∀ edge, edge ∈ edges → arm (state (to edge)) ≠ arm (state pathNode)) →
  matchingCommands pathNode edges = Return [].
Proof.
  induction edges as [|edge edges IH]; intros Hcompare Harms; simpl; [done|].
  destruct (Hcompare edge) as (different & -> & Hzero); [left|]. simpl.
  rewrite IH; [|intros; apply Hcompare; by right|intros; apply Harms; by right].
  simpl. destruct (Z.eqb_spec different 0) as [->|?]; [|done].
  exfalso. apply (Harms edge); [left|]. symmetry. by apply Hzero.
Qed.

(** Exactly one command is pushed for the edge that was taken. *)
Lemma matchingCommands_one (edges : list EdgeWithCommand) (edge : EdgeWithCommand) :
  (∀ other, other ∈ edges →
     compareNodes (to edge) (to other)
     = Return (if bool_decide
                    (holding (state (to edge)) = holding (state (to other))
                     ∧ arm (state (to edge)) = arm (state (to other))
                     ∧ stacks (state (to edge)) = stacks (state (to other)))
               then 0 else 1)%Z) →
  NoDup (map (λ other, arm (state (to other))) edges) →
  edge ∈ edges →
  matchingCommands (to edge) edges = Return [command edge].
Proof.
  induction edges as [|first edges IH]; intros Hcompare Hnodup Hedge;
    [by apply elem_of_nil in Hedge|].
  simpl in Hnodup. apply NoDup_cons in Hnodup as [Hfirst Hnodup]. simpl.
  apply elem_of_cons in Hedge as [<-|Hedge].
  - rewrite Hcompare by left. rewrite bool_decide_eq_true_2 by done. simpl.
    rewrite matchingCommands_none; [done| |].
    + intros other Hother. rewrite Hcompare by (by right).
      eexists. split; [done|]. case_bool_decide as Hsame; [|done].
      by destruct Hsame as (_ & ? & _).
    + intros other Hother Harm. apply Hfirst. rewrite <- Harm.
      by apply (list_elem_of_fmap_2 (λ other, arm (state (to other)))).
  - rewrite Hcompare by left.
    rewrite bool_decide_eq_false_2.
    + simpl. rewrite IH; [done| |done|done].
      intros. apply Hcompare. by right.
    + intros (_ & Harm & _). apply Hfirst. rewrite <- Harm.
      by apply (list_elem_of_fmap_2 (λ other, arm (state (to other)))).
Qed.

Lemma planSteps_follows (node : SNode) (path : list SNode)
    (commands : list string) :
  keysNonEmpty (state node) → follows node path commands →
  planSteps (node :: path) = Return commands.
Proof.
  intros Hkeys Hfollows.
  induction Hfollows as [node|node edges edge path commands Hedges Hedge _ IH];
    [done|].
  pose proof (outgoingEdges_inv _ _ _ Hedges Hedge) as Hstep.
  destruct (successor_shape _ _ Hkeys Hstep) as (Hkeys' & _ & _).
  change (planSteps (node :: to edge :: path))
    with (edges ← outgoingEdges node;
          commands ← matchingCommands (to edge) edges;
          later ← planSteps (to edge :: path);
          Return (commands ++ later)).
  rewrite Hedges. cbv beta iota delta [mbind outcome_bind].
  rewrite (matchingCommands_one edges edge); [|..|done].
  - by rewrite (IH Hkeys').
  - intros other Hother.
    pose proof (outgoingEdges_inv _ _ _ Hedges Hother) as Hstep'.
    pose proof (compareNodes_reachable (state node) (state (to edge))
                  (state (to other)) Hkeys (rtc_once _ _ Hstep)
                  (rtc_once _ _ Hstep')) as Hcompare.
    by destruct (to edge), (to other).
  - by destruct (outgoingEdges_shape_lemma node edges Hedges) as (_ & _ & ? & _).
Qed.

(** X27.  When the search returns a path that follows edges of the graph
    from the start state (which has no empty key), [planInterpretation]
    returns one command per step: the commands of the edges followed. *)
Theorem planInterpretation_follows
    (search : DNFFormula → SNode → outcome (option (list SNode)))
    (interpretation : DNFFormula) (st : WorldState) (path : list SNode)
    (commands : list string) :
  keysNonEmpty st →
  search interpretation (mkSNode st) = Return (Some path) →
  follows (mkSNode st) path commands →
  planInterpretation search interpretation st = Return (Some commands)
  ∧ length commands = length path.
Proof.
  intros Hkeys Hsearch Hfollows. split.
  - unfold planInterpretation. rewrite Hsearch.
    cbv beta iota delta [mbind outcome_bind].
    by rewrite (planSteps_follows (mkSNode st) path commands).
  - clear Hsearch Hkeys. induction Hfollows; simpl; [done|]. by f_equal.
Qed.



(** ** Instances of the further properties on the example worlds *)

Lemma example_objects_no_itself (st : WorldState) :
  objects st = example_objects → notInTable "itself" st.
Proof.
  intros Hobjects def Hin. rewrite Hobjects in Hin.
  repeat (apply elem_of_cons in Hin as [[=]|Hin]). by apply elem_of_nil in Hin.
Qed.

Lemma small_world_keys : keysNonEmpty small_world.
Proof.
  split; [done|].
  intros stack [->|[->|[]%elem_of_nil]%elem_of_cons]%elem_of_cons Hin;
    repeat (apply elem_of_cons in Hin as [[=]|Hin]); by apply elem_of_nil in Hin.
Qed.

Lemma small_world_pick : successor small_world picked_world.
Proof.
  exists small_world_edges, pick_edge.
  split; [reflexivity|]. split; [right; left|reflexivity].
Qed.

Lemma small_world_right : successor small_world moved_world.
Proof.
  exists small_world_edges, right_edge.
  split; [reflexivity|]. split; [left|reflexivity].
Qed.

(** [isBeside_columns] on [b] and [c] of [small_world]. *)
Lemma isBeside_columns_witness :
  isBeside (stacks small_world) "b" "c" = true
  ↔ ∃ i j, getStackNumber (stacks small_world) "b" = Some i
           ∧ getStackNumber (stacks small_world) "c" = Some j
           ∧ Z.abs (j - i) = 1%Z.
Proof.
  apply (isBeside_columns (stacks small_world) "b" "c").
  apply (bool_decide_unpack _). vm_compute. exact I.
Defined.

(** [isLeftOf_isRightOf_columns] on [a] and [c] of [small_world]. *)
Lemma isLeftOf_isRightOf_columns_witness :
  (isLeftOf (stacks small_world) "a" "c" = true
   ↔ ∃ i j, getStackNumber (stacks small_world) "a" = Some i
            ∧ getStackNumber (stacks small_world) "c" = Some j ∧ (i < j)%Z)
  ∧ (isRightOf (stacks small_world) "a" "c" = true
     ↔ ∃ i j, getStackNumber (stacks small_world) "a" = Some i
              ∧ getStackNumber (stacks small_world) "c" = Some j ∧ (j < i)%Z).
Proof.
  apply (isLeftOf_isRightOf_columns (stacks small_world) "a" "c").
  apply (bool_decide_unpack _). vm_compute. exact I.
Defined.

(** [isInside_spec] on the ball in the box of [box_world]. *)
Lemma isInside_spec_witness :
  isInside ["k"; "e"] "e" "k" box_world = true
  ↔ getObjectForm "k" box_world ≠ Some table
    ∧ ∃ i, ["k"; "e"] !! i = Some "k" ∧ ["k"; "e"] !! S i = Some "e".
Proof.
  apply (isInside_spec ["k"; "e"] "e" "k" box_world).
  apply (bool_decide_unpack _). vm_compute. exact I.
Defined.

(** [isOnTop_isInside] on the same ball and box. *)
Lemma isOnTop_isInside_witness :
  isOnTop ["k"; "e"] "e" "k" box_world = isInside ["k"; "e"] "e" "k" box_world.
Proof.
  apply (isOnTop_isInside ["k"; "e"] "e" "k" box_world); discriminate.
Defined.

(** [isOnTop_isAbove] on [b] on [a] in [small_world]. *)
Lemma isOnTop_isAbove_witness : isAbove ["a"; "b"] "b" "a" small_world = true.
Proof.
  apply (isOnTop_isAbove ["a"; "b"] "b" "a" small_world). reflexivity.
Defined.

(** [getPossibleMoves_valid] on "put [b] on the floor". *)
Lemma getPossibleMoves_valid_witness :
  Forall (λ lit,
    (relation lit = "holding" ∧ args lit = ["b"])
    ∨ ∃ place key,
        Some on_the_floor = Some place ∧ relation lit = loc_relation place
        ∧ args lit = ["b"; key]
        ∧ isMoveValid "b" (loc_relation place) key holding_world = true)
    [mkLiteral true "ontop" ["b"; "floor"]].
Proof.
  apply (getPossibleMoves_valid "put" "b" (Some on_the_floor) holding_world);
    [discriminate|reflexivity].
Defined.

(** [getPossibleMoves_held_unchecked] on "put it on the floor" with [b]
    held. *)
Lemma getPossibleMoves_held_unchecked_witness :
  getPossibleMoves "put" "itself" (Some on_the_floor) holding_world
  = Return (map (λ key, mkLiteral true (loc_relation on_the_floor) ["b"; key])
              (getObjectKeys (ent_object (loc_entity on_the_floor))
                 holding_world)).
Proof.
  apply (getPossibleMoves_held_unchecked "put" on_the_floor holding_world "b").
  - right. left. reflexivity.
  - reflexivity.
  - reflexivity.
  - apply example_objects_no_itself. reflexivity.
Defined.

(** [outgoingEdges_expandable] on the pick edge of [small_world]. *)
Lemma outgoingEdges_expandable_witness :
  armInRange (state (to pick_edge))
  ∧ ∃ edges', outgoingEdges (to pick_edge) = Return edges'.
Proof.
  apply (outgoingEdges_expandable (mkSNode small_world) small_world_edges
           pick_edge); [reflexivity|right; left].
Defined.

(** [outgoingEdges_shape] on the edges of [small_world]. *)
Lemma outgoingEdges_shape_witness :
  (length small_world_edges ≤ 3)%nat
  ∧ NoDup (map command small_world_edges)
  ∧ NoDup (map (λ edge, arm (state (to edge))) small_world_edges)
  ∧ ¬ ("d" ∈ map command small_world_edges
       ∧ "p" ∈ map command small_world_edges)
  ∧ Forall (λ edge,
      from edge = mkSNode small_world ∧ cost edge = 1%Z
      ∧ command edge ∈ ["l"; "r"; "d"; "p"]
      ∧ objects (state (to edge)) = objects (state (mkSNode small_world)))
      small_world_edges.
Proof.
  apply (outgoingEdges_shape (mkSNode small_world) small_world_edges).
  reflexivity.
Defined.

(** [successor_undo] on the arm move of [small_world]. *)
Lemma successor_undo_witness : successor (state (to right_edge)) small_world.
Proof.
  apply (successor_undo small_world small_world_edges right_edge);
    [reflexivity|left|discriminate].
Defined.

(** [drop_achieves_ontop] on dropping [b] on the table [c]. *)
Lemma drop_achieves_ontop_witness :
  isInterpretationInCurrentWorldstate
    (mkLiteral true "ontop" ["b"; support ["c"]])
    (mkWorldState
       (alter (λ stack, stack ++ ["b"]) (Z.to_nat (arm holding_world))
          (stacks holding_world))
       Nil (arm holding_world) (objects holding_world) (examples holding_world))
  = true.
Proof.
  apply (drop_achieves_ontop holding_world ["c"] "b" true).
  - reflexivity.
  - apply (bool_decide_unpack _). vm_compute. exact I.
  - discriminate.
Defined.

(** [compareNodes_fewer_columns] on [short_world] against [wide_world]. *)
Lemma compareNodes_fewer_columns_witness :
  compareNodes (mkSNode short_world) (mkSNode wide_world) = Throw TypeError.
Proof.
  apply (compareNodes_fewer_columns (mkSNode short_world) (mkSNode wide_world)
           ["c"] []); try reflexivity; [discriminate|].
  intros stack [->|[]%elem_of_nil]%elem_of_cons Hin.
  repeat (apply elem_of_cons in Hin as [[=]|Hin]). by apply elem_of_nil in Hin.
Defined.

(** [reachable_same_world] on the pick of [b]. *)
Lemma reachable_same_world_witness :
  keysNonEmpty picked_world
  ∧ length (stacks picked_world) = length (stacks small_world)
  ∧ load picked_world = load small_world
  ∧ objects picked_world = objects small_world.
Proof.
  apply (reachable_same_world small_world picked_world).
  - exact small_world_keys.
  - apply rtc_once. exact small_world_pick.
Defined.

(** [getHeuristicForGoal_nonneg] on [holding(c)] in [small_world]. *)
Lemma getHeuristicForGoal_nonneg_witness : (0 ≤ 1)%Z.
Proof.
  apply (getHeuristicForGoal_nonneg (mkLiteral true "holding" ["c"])
           small_world 1).
  reflexivity.
Defined.

(** [heuristic_constant] on the goal [beside(a, c)]. *)
Lemma heuristic_constant_witness :
  heuristic [[mkLiteral true "beside" ["a"; "c"]]] (mkSNode small_world)
  = Return 9999999%Z.
Proof.
  apply (heuristic_constant [[mkLiteral true "beside" ["a"; "c"]]]
           (mkSNode small_world)).
  constructor; [|constructor].
  exists (mkLiteral true "beside" ["a"; "c"]).
  split; [reflexivity|]. split; [left|discriminate].
Defined.

(** [heuristic_at_holding_goal] on [holding(b)] in [holding_world]. *)
Lemma heuristic_at_holding_goal_witness :
  isInterpretationInCurrentWorldstate (mkLiteral true "holding" ["b"])
    holding_world = true
  ∧ getHeuristicForGoal (mkLiteral true "holding" ["b"]) holding_world
    = Num (Z.abs (arm holding_world)).
Proof.
  apply (heuristic_at_holding_goal (mkLiteral true "holding" ["b"])
           holding_world "b"); try reflexivity.
  intros stack [->|[->|[]%elem_of_nil]%elem_of_cons]%elem_of_cons Hin;
    repeat (apply elem_of_cons in Hin as [[=]|Hin]); by apply elem_of_nil in Hin.
Defined.

(** [planInterpretation_follows] on the path that picks [b]. *)
Lemma planInterpretation_follows_witness :
  planInterpretation search_pick [[mkLiteral true "holding" ["b"]]] small_world
  = Return (Some ["p"])
  ∧ length ["p"] = length [mkSNode picked_world].
Proof.
  apply (planInterpretation_follows search_pick
           [[mkLiteral true "holding" ["b"]]] small_world
           [mkSNode picked_world] ["p"]).
  - exact small_world_keys.
  - reflexivity.
  - apply (follows_cons (mkSNode small_world) small_world_edges pick_edge [] []).
    + reflexivity.
    + right. left.
    + constructor.
Defined.


(** [compareNodes_same_search] on the two successors of [small_world]. *)
Lemma compareNodes_same_search_witness :
  compareNodes (mkSNode picked_world) (mkSNode moved_world)
  = Return (if bool_decide (holding picked_world = holding moved_world
                            ∧ arm picked_world = arm moved_world
                            ∧ stacks picked_world = stacks moved_world)
            then 0 else 1)%Z.
Proof.
  apply (compareNodes_same_search small_world picked_world moved_world).
  - exact small_world_keys.
  - apply rtc_once. exact small_world_pick.
  - apply rtc_once. exact small_world_right.
Defined.

(** [isGoal_single] on the goal [holding(b)] after the pick. *)
Lemma isGoal_single_witness :
  isGoal [[mkLiteral true "holding" ["b"]]] (mkSNode picked_world)
  = Return (formulaTrue [[mkLiteral true "holding" ["b"]]]
              (state (mkSNode picked_world))).
Proof.
  apply (isGoal_single [[mkLiteral true "holding" ["b"]]] (mkSNode picked_world)).
  constructor; [|constructor].
  exists (mkLiteral true "holding" ["b"]). split; reflexivity.
Defined.
